(** * A shallow embedding of nishanths/impl (impl.go, errors.go, impl_test.go)

    The tool reads Go packages, collects the objects the type checker
    defines, and reports for an interface [pkg.Name] every object whose
    type implements it.  The Go type checker ([go/types]) and the parser
    are library code; the parts of them the tool relies on (type strings,
    underlying types, [types.Implements], the [Defs] table) are modelled
    here on a small fragment of Go types. *)

From stdpp Require Import base gmap sets list strings.
From Stdlib Require Import Ascii String.
Open Scope string_scope.
Set Warnings "-register-all".

(* ------------------------------------------------------------------ *)
(** ** Go types (the fragment of go/types the tool touches) *)

(** [token.Pos]: an offset into a FileSet; [0] is [token.NoPos]. *)
Definition Pos := nat.
Definition NoPos : Pos := 0.

(** A [types.Type].  A named type carries its package path, the identity
    of its [*types.Package], its name, the position of its declaration,
    its underlying type and its declared methods (name, whether the
    receiver is a pointer, signature).  A method signature is a
    [Signature] whose parameters keep their names, as [TypeString]
    prints them. *)
Inductive Ty : Type :=
| TBasic (name : string)
| TNamed (pkgpath : string) (pkgid : nat) (name : string) (declpos : Pos)
        (under : Ty) (methods : list (string * bool * Ty))
| TPointer (elem : Ty)
| TSignature (params : list (string * Ty)) (results : list Ty)
| TInterface (methods : list (string * Ty))
| TStruct (fields : list (string * Ty)).

(** [types.Type.Underlying()] *)
Definition underlying (t : Ty) : Ty :=
  match t with
  | TNamed _ _ _ _ u _ => u
  | _ => t
  end.

(** [types.IsInterface] *)
Definition isInterface (t : Ty) : bool :=
  match underlying t with
  | TInterface _ => true
  | _ => false
  end.

Definition join (sep : string) (l : list string) : string :=
  match l with
  | [] => ""
  | x :: r => fold_left (fun acc y => acc ++ sep ++ y) r x
  end.

(** [types.TypeString(t, nil)]: named types are qualified by their
    package path. *)
Fixpoint TypeString (t : Ty) : string :=
  match t with
  | TBasic n => n
  | TNamed p _ n _ _ _ => p ++ "." ++ n
  | TPointer e => "*" ++ TypeString e
  | TSignature ps rs =>
      "func(" ++ join ", " (map (fun '(n, ty) => n ++ " " ++ TypeString ty) ps) ++ ")"
      ++ match rs with
         | [] => ""
         | [r] => " " ++ TypeString r
         | _ => " (" ++ join ", " (map TypeString rs) ++ ")"
         end
  | TInterface ms =>
      "interface{" ++ join "; " (map (fun '(n, ty) => n ++ TypeString ty) ms) ++ "}"
  | TStruct fs =>
      "struct{" ++ join "; " (map (fun '(n, ty) => n ++ " " ++ TypeString ty) fs) ++ "}"
  end.

(** [types.Identical]: named types are identical when they are the same
    type name object (same package, same name); parameter names are
    ignored. *)
Fixpoint identical (a b : Ty) : bool :=
  match a, b with
  | TBasic x, TBasic y => String.eqb x y
  | TNamed _ p x _ _ _, TNamed _ q y _ _ _ => Nat.eqb p q && String.eqb x y
  | TPointer x, TPointer y => identical x y
  | TSignature ps rs, TSignature qs ss =>
      (fix params (l1 l2 : list (string * Ty)) : bool :=
         match l1, l2 with
         | [], [] => true
         | (_, x) :: l1', (_, y) :: l2' => identical x y && params l1' l2'
         | _, _ => false
         end) ps qs &&
      (fix tys (l1 l2 : list Ty) : bool :=
         match l1, l2 with
         | [], [] => true
         | x :: l1', y :: l2' => identical x y && tys l1' l2'
         | _, _ => false
         end) rs ss
  | TInterface ms, TInterface ns =>
      (fix meths (l1 l2 : list (string * Ty)) : bool :=
         match l1, l2 with
         | [], [] => true
         | (n, x) :: l1', (m, y) :: l2' =>
             String.eqb n m && identical x y && meths l1' l2'
         | _, _ => false
         end) ms ns
  | TStruct fs, TStruct gs =>
      (fix fields (l1 l2 : list (string * Ty)) : bool :=
         match l1, l2 with
         | [], [] => true
         | (n, x) :: l1', (m, y) :: l2' =>
             String.eqb n m && identical x y && fields l1' l2'
         | _, _ => false
         end) fs gs
  | _, _ => false
  end.

(** The method set of a type, as [types.Implements] consults it for a
    non-interface type: a named type has its value-receiver methods, a
    pointer to a named type has all its methods, an interface has its
    methods.  (Promotion through embedded struct fields is not part of
    this fragment.) *)
Definition method_set (t : Ty) : list (string * Ty) :=
  match t with
  | TNamed _ _ _ _ (TInterface ms) _ => ms
  | TInterface ms => ms
  | TNamed _ _ _ _ _ ms =>
      map (fun '(n, _, sig) => (n, sig)) (List.filter (fun '(_, ptr, _) => negb ptr) ms)
  | TPointer (TNamed _ _ _ _ u ms) =>
      match u with
      | TInterface _ => []
      | _ => map (fun '(n, _, sig) => (n, sig)) ms
      end
  | _ => []
  end.

(** [types.Implements(V, T)] for an interface [T] with methods [tms]:
    every method of [T] is found in the method set of [V] with an
    identical signature. *)
Definition Implements (v : Ty) (tms : list (string * Ty)) : bool :=
  forallb (fun '(n, sig) =>
             existsb (fun '(m, sig') => String.eqb n m && identical sig sig')
                     (method_set v)) tms.

(* ------------------------------------------------------------------ *)
(** ** Objects, identifiers and results (impl.go) *)

(** [types.Object] kinds and [ast.ObjKind]. *)
Inductive ObjKind := KTypeName | KVar | KFunc | KConst | KPkgName.
Inductive AstObjKind := AstBad | AstPkg | AstCon | AstTyp | AstVar | AstFun | AstLbl.

(** A [types.Object]: its package (the identity of the [*types.Package]
    pointer), name, type and position. *)
Record Object := mkObject {
  obj_kind : ObjKind;
  obj_pkg : nat;
  obj_name : string;
  obj_type : Ty;
  obj_pos : Pos
}.

(** An [*ast.Ident]; [ident_obj] is the parser's [ident.Obj], absent
    ([nil]) for identifiers the parser did not resolve. *)
Record Ident := mkIdent {
  ident_name : string;
  ident_obj : option AstObjKind
}.

(** [token.Position] and a [*token.FileSet], which maps a [Pos] to it. *)
Record Position := mkPosition {
  pos_filename : string;
  pos_offset : nat
}.
Definition FileSet := Pos -> Position.

(** [ObjectIdent]: a [types.Object], its [*ast.Ident] and its FileSet. *)
Record ObjectIdent := mkObjectIdent {
  oi_obj : Object;
  oi_ident : Ident;
  oi_fset : FileSet
}.

Definition oi_type (o : ObjectIdent) : Ty := obj_type (oi_obj o).
Definition oi_pkg (o : ObjectIdent) : nat := obj_pkg (oi_obj o).

(** [findDef] *)
Fixpoint findDef (typ : Ty) : Pos :=
  match typ with
  | TNamed _ _ _ p _ _ => p
  | TPointer e => findDef e
  | _ => NoPos
  end.

(** [ResultIdentifier] and [NewResultIdentifier]. *)
Record ResultIdentifier := mkResultIdentifier {
  ri_Name : string;
  ri_Pos : Position
}.

Definition NewResultIdentifier (o : ObjectIdent) : ResultIdentifier :=
  {| ri_Name := TypeString (oi_type o);
     ri_Pos := oi_fset o (findDef (oi_type o)) |}.

(** A Go slice, which is either [nil] or made (possibly empty). *)
Inductive slice (A : Type) := SNil | SMade (xs : list A).
Arguments SNil {A}.
Arguments SMade {A} xs.

Definition elems {A} (s : slice A) : list A :=
  match s with SNil => [] | SMade xs => xs end.

(** [append(s, x)] *)
Definition sappend {A} (s : slice A) (x : A) : slice A := SMade (elems s ++ [x]).

(** [Result] *)
Record Result := mkResult {
  Interface : ResultIdentifier;
  Implementers : slice ResultIdentifier
}.

(** [Char]: package identity and type string; [NewChar]. *)
Definition Char : Type := (nat * string)%type.

Definition NewChar (o : ObjectIdent) : Char := (oi_pkg o, TypeString (oi_type o)).

(** [CharSet]: a [map[Char]bool] whose entries are all [true]. *)
Abbreviation CharSet := (gset Char).

(** [filterInterfaces] *)
Definition filterInterfaces (objs : list ObjectIdent) (name : string) : list ObjectIdent :=
  List.filter (fun o => isInterface (oi_type o) && String.eqb (TypeString (oi_type o)) name) objs.

(** [intuitiveImplements].  The type assertion of
    [iface.Type().Underlying()] to an interface only ever sees
    interfaces, since [findImplementers] passes the output of
    [filterInterfaces]; the other branch stands for the panic. *)
Definition intuitiveImplements (obj iface : ObjectIdent) : bool :=
  if decide (NewChar obj = NewChar iface) then false
  else match underlying (oi_type iface) with
       | TInterface tms => Implements (oi_type obj) tms
       | _ => false
       end.

(** [seen[k]]: a missing key reads as the zero (empty) set. *)
Definition seen_at (seen : gmap Char CharSet) (k : Char) : CharSet :=
  match seen !! k with Some s => s | None => ∅ end.

(** The inner loop of [findImplementers], over [objects], for the
    interface [iface] whose Char is [in_]. *)
Fixpoint scan_objects (iface : ObjectIdent) (in_ : Char) (concreteOnly : bool)
    (objs : list ObjectIdent) (seen : gmap Char CharSet)
    (impls : slice ResultIdentifier) : gmap Char CharSet * slice ResultIdentifier :=
  match objs with
  | [] => (seen, impls)
  | obj :: rest =>
      let o := NewChar obj in
      if bool_decide (o ∈ seen_at seen in_) then
        scan_objects iface in_ concreteOnly rest seen impls
      else
        let seen' := <[in_ := {[o]} ∪ seen_at seen in_]> seen in
        if concreteOnly && isInterface (oi_type obj) then
          scan_objects iface in_ concreteOnly rest seen' impls
        else if intuitiveImplements obj iface then
          scan_objects iface in_ concreteOnly rest seen' (sappend impls (NewResultIdentifier obj))
        else
          scan_objects iface in_ concreteOnly rest seen' impls
  end.

(** The outer loop of [findImplementers], over the selected interfaces. *)
Fixpoint scan_interfaces (ifaces objs : list ObjectIdent) (concreteOnly : bool)
    (seen : gmap Char CharSet) (results : slice Result) : slice Result :=
  match ifaces with
  | [] => results
  | iface :: rest =>
      let in_ := NewChar iface in
      match seen !! in_ with
      | Some _ => scan_interfaces rest objs concreteOnly seen results
      | None =>
          let seen1 := <[in_ := ∅]> seen in
          let '(seen2, impls) := scan_objects iface in_ concreteOnly objs seen1 (SMade []) in
          scan_interfaces rest objs concreteOnly seen2
            (sappend results {| Interface := NewResultIdentifier iface; Implementers := impls |})
      end
  end.

(** [findImplementers] *)
Definition findImplementers (objects : list ObjectIdent) (targetInterface : string)
    (concreteOnly : bool) : slice Result :=
  scan_interfaces (filterInterfaces objects targetInterface) objects concreteOnly ∅ SNil.

(* ------------------------------------------------------------------ *)
(** ** The symbol collector (getObjectsPkg) *)

(** The entries of [info.Defs] after [conf.Check]: each defining
    identifier with the object it defines ([nil] for the package
    clause).  The map is iterated in an unspecified order; the list
    gives one such order. *)
Definition Defs := list (Ident * option Object).

(** The values the goroutine of [getObjectsPkg] sends on [ch], in the
    iteration order of [info.Defs]: entries whose object or whose
    [ident.Obj] is [nil] are skipped. *)
Fixpoint getObjectsPkg_sent (fset : FileSet) (defs : Defs) : list ObjectIdent :=
  match defs with
  | [] => []
  | (ident, obj) :: rest =>
      match obj, ident_obj ident with
      | Some o, Some _ => mkObjectIdent o ident fset :: getObjectsPkg_sent fset rest
      | _, _ => getObjectsPkg_sent fset rest
      end
  end.


(* ------------------------------------------------------------------ *)
(** ** The test package internal/testdata/file1.go *)

Module Testdata.

Definition fset1 : FileSet := fun p => mkPosition "internal/testdata/file1.go" p.

(** Package [testpkg] has identity 1; positions are [100 * line + column]. *)
Definition pkg := 1.
Definition int := TBasic "int".
Definition str := TBasic "string".
Definition sig0 := TSignature [] [].
Definition sig_qux := TSignature [("qux", int)] [].
Definition foo_methods := [("Exist", sig0); ("Bar", sig0); ("Baz", sig_qux)].

Definition Foo := TNamed "testpkg" pkg "Foo" 506 (TInterface foo_methods) [].
Definition Planet := TNamed "testpkg" pkg "Planet" 1106 (TInterface foo_methods) [].
Definition Baz := TNamed "testpkg" pkg "Baz" 1706 (TInterface [("Crazy", sig0)]) [].
Definition Zaphod :=
  TNamed "testpkg" pkg "Zaphod" 2306 (TStruct [])
    [("Bar", true, sig0); ("Baz", true, TSignature [("a", int)] []);
     ("Exist", true, sig0); ("Speak", true, TSignature [("s", str)] [])].

Definition def (name : string) (k : option AstObjKind) (ok : ObjKind) (t : Ty) (p : Pos)
  : Ident * option Object :=
  (mkIdent name k, Some (mkObject ok pkg name t p)).

(** [info.Defs] for file1.go.  The parser resolves ([ident.Obj] set)
    type names, interface methods, receivers and parameters; it does
    not declare the names of methods declared with a receiver. *)
Definition defs_file1 : Defs :=
  [ (mkIdent "testpkg" None, None);
    def "Foo" (Some AstTyp) KTypeName Foo 506;
    def "Exist" (Some AstFun) KFunc sig0 602;
    def "Bar" (Some AstFun) KFunc sig0 702;
    def "Baz" (Some AstFun) KFunc sig_qux 802;
    def "qux" (Some AstVar) KVar int 806;
    def "Planet" (Some AstTyp) KTypeName Planet 1106;
    def "Exist" (Some AstFun) KFunc sig0 1202;
    def "Bar" (Some AstFun) KFunc sig0 1302;
    def "Baz" (Some AstFun) KFunc sig_qux 1402;
    def "qux" (Some AstVar) KVar int 1406;
    def "Baz" (Some AstTyp) KTypeName Baz 1706;
    def "Crazy" (Some AstFun) KFunc sig0 1802;
    def "Zaphod" (Some AstTyp) KTypeName Zaphod 2306;
    def "s" (Some AstVar) KVar (TPointer Zaphod) 2507;
    def "Bar" None KFunc sig0 2519;
    def "k" (Some AstVar) KVar (TPointer Zaphod) 2607;
    def "Baz" None KFunc (TSignature [("a", int)] []) 2619;
    def "a" (Some AstVar) KVar int 2623;
    def "z" (Some AstVar) KVar (TPointer Zaphod) 2707;
    def "Exist" None KFunc sig0 2719;
    def "z" (Some AstVar) KVar (TPointer Zaphod) 2807;
    def "Speak" None KFunc (TSignature [("s", str)] []) 2819;
    def "s" (Some AstVar) KVar str 2825 ].

Definition universe_file1 : list ObjectIdent := getObjectsPkg_sent fset1 defs_file1.

(** The objects defined by [type Foo ...] and [type Baz ...]. *)
Definition Foo_obj : ObjectIdent :=
  mkObjectIdent (mkObject KTypeName pkg "Foo" Foo 506) (mkIdent "Foo" (Some AstTyp)) fset1.
Definition Baz_obj : ObjectIdent :=
  mkObjectIdent (mkObject KTypeName pkg "Baz" Baz 1706) (mkIdent "Baz" (Some AstTyp)) fset1.

End Testdata.

(* ------------------------------------------------------------------ *)
(** ** What findImplementers computes, stated without the seen table *)

(** A candidate [obj] is reported for [iface] when it passes the
    concrete-only filter and [intuitiveImplements]. *)
Definition candidate_ok (concreteOnly : bool) (iface obj : ObjectIdent) : bool :=
  negb (concreteOnly && isInterface (oi_type obj)) && intuitiveImplements obj iface.

(** The candidates kept for [iface]: the first object of each Char not
    yet [visited], when it is a [candidate_ok]. *)
Fixpoint select_implementers (iface : ObjectIdent) (concreteOnly : bool)
    (objs : list ObjectIdent) (visited : gset Char) : list ObjectIdent :=
  match objs with
  | [] => []
  | obj :: rest =>
      if bool_decide (NewChar obj ∈ visited) then
        select_implementers iface concreteOnly rest visited
      else if candidate_ok concreteOnly iface obj then
        obj :: select_implementers iface concreteOnly rest ({[NewChar obj]} ∪ visited)
      else select_implementers iface concreteOnly rest ({[NewChar obj]} ∪ visited)
  end.

(** The interfaces that get a result row: the first of each Char. *)
Fixpoint dedup_interfaces (ifaces : list ObjectIdent) (visited : gset Char) : list ObjectIdent :=
  match ifaces with
  | [] => []
  | i :: rest =>
      if bool_decide (NewChar i ∈ visited) then dedup_interfaces rest visited
      else i :: dedup_interfaces rest ({[NewChar i]} ∪ visited)
  end.

(** The result row of interface [i]. *)
Definition result_row (objs : list ObjectIdent) (concreteOnly : bool) (i : ObjectIdent) : Result :=
  {| Interface := NewResultIdentifier i;
     Implementers := SMade (map NewResultIdentifier (select_implementers i concreteOnly objs ∅)) |}.

(** Objects of one Char get one verdict (true of any universe coming
    from one type-checked package, where a Char fixes the type). *)
Definition consistentb (objs : list ObjectIdent) (i : ObjectIdent) (c : bool) : bool :=
  forallb (fun x => forallb (fun y =>
     negb (bool_decide (NewChar x = NewChar y))
     || Bool.eqb (candidate_ok c i x) (candidate_ok c i y)) objs) objs.

(* ------------------------------------------------------------------ *)
(** ** Errors (errors.go) *)

(** Go [error] values: a plain error (such as [errors.New(msg)] or an
    error of the parser or type checker), or a [wrappedErr]. *)
Inductive error : Type :=
| ErrString (msg : string)
| wrappedErr (message : string) (err : error).

(** [err.Error()]; for [wrappedErr] it is [fmt.Sprintf("%s: %v", w.message, w.err)]. *)
Fixpoint Error (e : error) : string :=
  match e with
  | ErrString m => m
  | wrappedErr m e' => m ++ ": " ++ Error e'
  end.

(** [wrapErr] *)
Definition wrapErr (msg : string) (e : error) : error :=
  match e with
  | wrappedErr m _ => wrappedErr (msg ++ ": " ++ m) e
  | _ => wrappedErr msg e
  end.

(* ------------------------------------------------------------------ *)
(** ** getObjects: producers, [converge] and the receiving loop

    One goroutine per package runs [getObjectsPkg] and sends its result
    on the unbuffered [errCh]; when type checking succeeded,
    [getObjectsPkg] has first started a goroutine that sends the
    collected objects on the package's unbuffered channel [c] and then
    closes it.  [converge] runs one forwarding goroutine per [c], which
    receives from [c] and sends on the unbuffered [x], and one goroutine
    that closes [x] once every forwarder is done ([wg.Wait]).  The
    [for]/[select] loop of [getObjects] receives from [x] and [errCh].
    Channels are unbuffered, so a send happens together with the
    receive that takes it. *)

Section GetObjects.
Context {V : Type}.

(** What [getObjectsPkg] does for one package: fail with an error, or
    send these values on [c]. *)
Inductive UnitOutcome := UFail (e : error) | UOk (sent : list V).

(** A forwarding goroutine of [converge]: waiting to receive from [c],
    holding a value to send on [x], or finished ([wg.Done]). *)
Inductive FwdSt := FRecv | FSend (v : V) | FDone.

(** Per package: the value the package goroutine still has to send on
    [errCh] ([None] once sent), the values the emitting goroutine still
    has to send on [c] ([None] when there is no such goroutine, or once
    it closed [c]), whether [c] is closed, and its forwarder. *)
Record UnitSt := mkUnitSt {
  u_err : option (option error);
  u_emit : option (list V);
  u_closed : bool;
  u_fwd : FwdSt
}.

(** The loop of [getObjects]: running with the [result] gathered so far,
    or returned. *)
Inductive MainSt := MLoop (result : slice V) | MReturn (result : slice V) (err : option error).

Record St := mkSt {
  st_main : MainSt;
  st_units : list UnitSt;
  st_xclosed : bool
}.

Definition set_err (u : UnitSt) (o : option (option error)) : UnitSt :=
  mkUnitSt o (u_emit u) (u_closed u) (u_fwd u).
Definition set_fwd (u : UnitSt) (f : FwdSt) : UnitSt :=
  mkUnitSt (u_err u) (u_emit u) (u_closed u) f.

Inductive step : St -> St -> Prop :=
(** [case obj, ok := <-finalCh] with [ok]: [result = append(result, obj)] *)
| step_recv_obj k u v res us xc :
    us !! k = Some u -> u_fwd u = FSend v ->
    step (mkSt (MLoop res) us xc) (mkSt (MLoop (sappend res v)) (<[k := set_fwd u FRecv]> us) xc)
(** [case obj, ok := <-finalCh] with [!ok]: [return result, nil] *)
| step_recv_closed res us :
    step (mkSt (MLoop res) us true) (mkSt (MReturn res None) us true)
(** [case err := <-errCh] with [err == nil]: keep looping *)
| step_recv_nil k u res us xc :
    us !! k = Some u -> u_err u = Some None ->
    step (mkSt (MLoop res) us xc) (mkSt (MLoop res) (<[k := set_err u None]> us) xc)
(** [case err := <-errCh] with [err != nil]: [return nil, err] *)
| step_recv_err k u e res us xc :
    us !! k = Some u -> u_err u = Some (Some e) ->
    step (mkSt (MLoop res) us xc) (mkSt (MReturn SNil (Some e)) (<[k := set_err u None]> us) xc)
(** a forwarder of [converge] receives from [c] what [getObjectsPkg]'s goroutine sends *)
| step_forward k u v vs m us xc :
    us !! k = Some u -> u_fwd u = FRecv -> u_emit u = Some (v :: vs) ->
    step (mkSt m us xc)
         (mkSt m (<[k := mkUnitSt (u_err u) (Some vs) (u_closed u) (FSend v)]> us) xc)
(** [getObjectsPkg]'s goroutine has sent everything: [close(ch)] *)
| step_close k u m us xc :
    us !! k = Some u -> u_emit u = Some [] ->
    step (mkSt m us xc) (mkSt m (<[k := mkUnitSt (u_err u) None true (u_fwd u)]> us) xc)
(** a forwarder finds [c] closed: its [range] ends, [wg.Done()] *)
| step_fwd_done k u m us xc :
    us !! k = Some u -> u_fwd u = FRecv -> u_closed u = true ->
    step (mkSt m us xc) (mkSt m (<[k := set_fwd u FDone]> us) xc)
(** [wg.Wait()] returns: [close(x)] *)
| step_close_x m us :
    Forall (fun u => u_fwd u = FDone) us ->
    step (mkSt m us false) (mkSt m us true).

Definition unit_init (o : UnitOutcome) : UnitSt :=
  match o with
  | UFail e => mkUnitSt (Some (Some e)) None false FRecv
  | UOk vs => mkUnitSt (Some None) (Some vs) false FRecv
  end.

(** The state once [getObjects] has started its goroutines and called
    [converge], with [result] still nil. *)
Definition getObjects_init (outs : list UnitOutcome) : St :=
  mkSt (MLoop SNil) (map unit_init outs) false.

End GetObjects.

Arguments UnitOutcome : clear implicits.
Arguments FwdSt : clear implicits.
Arguments UnitSt : clear implicits.
Arguments MainSt : clear implicits.
Arguments St : clear implicits.

(** The invariant of the states reachable from [getObjects_init outs]. *)
Definition unit_inv {V} (o : UnitOutcome V) (u : UnitSt V) : Prop :=
  (u_fwd u = FDone -> u_closed u = true) /\
  match o with
  | UFail e => u_closed u = false /\ u_emit u = None /\ (u_err u = Some (Some e) \/ u_err u = None)
  | UOk _ => u_err u = Some None \/ u_err u = None
  end.

Definition main_inv {V} (outs : list (UnitOutcome V)) (s : St V) : Prop :=
  match st_main s with
  | MLoop _ => True
  | MReturn _ None => st_xclosed s = true
  | MReturn res (Some e) => res = SNil /\ UFail e ∈ outs
  end.

Definition getObjects_inv {V} (outs : list (UnitOutcome V)) (s : St V) : Prop :=
  Forall2 unit_inv outs (st_units s) /\
  (st_xclosed s = true -> Forall (fun u => u_fwd u = FDone) (st_units s)) /\
  main_inv outs s.

(** A unit [u'] later than [u] when nobody receives any more: its
    package goroutine still has the same send on [errCh] pending, and a
    forwarder holding a value still holds it. *)
Definition still_blocked {V} (u u' : UnitSt V) : Prop :=
  u_err u' = u_err u /\ (forall v, u_fwd u = FSend v -> u_fwd u' = FSend v).

(** Two packages: the first fails type checking, the second defines one
    object (here the value [7]). *)
Definition c9_error : error := wrapErr "type-checks failed. Make sure dependencies are completely installed" (ErrString "undeclared name: x").
Definition c9_outs : list (UnitOutcome nat) := [UFail c9_error; UOk [7]].

(** The state after the loop of [getObjects] received the first
    package's error from [errCh] and returned. *)
Definition c9_returned : St nat :=
  mkSt (MReturn SNil (Some c9_error))
       [set_err (unit_init (UFail c9_error)) None; unit_init (UOk [7])] false.

(* ------------------------------------------------------------------ *)
(** ** Flags: [contains] and [checkFlags] *)

(** [contains] *)
Fixpoint contains (list : list string) (target : string) : bool :=
  match list with
  | [] => false
  | s :: rest => if String.eqb s target then true else contains rest target
  end.

(** [strings.Split(s, sep)] for a one-byte [sep]: the pieces of [s]
    between the occurrences of [sep], in order; [[""]] for an empty
    [s]. *)
Fixpoint split_byte (sep : Ascii.ascii) (s : string) : list string :=
  match s with
  | EmptyString => [EmptyString]
  | String ch rest =>
      let parts := split_byte sep rest in
      if Ascii.eqb ch sep then EmptyString :: parts
      else match parts with
           | p :: ps => String ch p :: ps
           | [] => [String ch EmptyString]
           end
  end.

(** The flag values in [arg]. *)
Record Args := mkArgs {
  arg_Path : string;
  arg_Interface : string;
  arg_Format : string;
  arg_ConcreteOnly : bool
}.

Definition err_path : error := ErrString "must specify directory to search (-path flag).
Run 'impl -h' for details.".
Definition err_interface : error := ErrString "must specify interface name in format: packageName.interfaceName (-interface flag).
Run 'impl -h' for details.".
Definition err_format : error := ErrString "output format should be one of: {plain,json,xml}
Run 'impl -h' for details.".

(** [checkFlags]: [None] is a nil error. *)
Definition checkFlags (arg : Args) : option error :=
  if String.eqb (arg_Path arg) "" then Some err_path
  else if negb (Nat.eqb (List.length (split_byte "."%char (arg_Interface arg))) 2) then Some err_interface
  else if negb (contains ["plain"; "json"; "xml"] (arg_Format arg)) then Some err_format
  else None.

(** The number of occurrences of the byte [c] in [s]. *)
Fixpoint count_byte (c : Ascii.ascii) (s : string) : nat :=
  match s with
  | EmptyString => 0
  | String ch rest => (if Ascii.eqb ch c then 1 else 0) + count_byte c rest
  end.

(* ------------------------------------------------------------------ *)
(** ** The plain format of [output]

    What [output(res, "plain")] prints, as the list of its lines (each
    is printed followed by a newline).  [base_of p] stands for
    [filepath.Base(p.String())], and [RuneCount] for
    [utf8.RuneCountInString], by which [fmt] measures the width of a
    [%-*s] operand. *)

Section Output.
Variable base_of : Position -> string.
Variable RuneCount : string -> nat.

Definition sep : string := ": ".

Fixpoint spaces (n : nat) : string :=
  match n with 0 => "" | S n => String " " (spaces n) end.

(** [fmt]'s [%-*s] with width [w]: [s] padded on the right with spaces
    to [w] runes, unchanged when it is already as wide. *)
Definition pad (w : nat) (s : string) : string := s ++ spaces (w - RuneCount s).

(** The first loop: the largest [len(path)+len(sep)]. *)
Definition longest_of (res : slice Result) : nat :=
  fold_left (fun longest r =>
    fold_left (fun longest ri =>
      let path := base_of (ri_Pos ri) in
      if Nat.ltb longest (String.length path + String.length sep)
      then String.length path + String.length sep else longest)
      (elems (Implementers r)) longest)
    (elems res) 0.

(** The lines printed for the row [r] at index [i] of [n] rows. *)
Definition row_lines (longest n i : nat) (r : Result) : list string :=
  (if Nat.eqb (List.length (elems (Implementers r))) 0 then ["No implementing types."] else []) ++
  map (fun ri => pad longest (base_of (ri_Pos ri) ++ sep) ++ ri_Name ri) (elems (Implementers r)) ++
  (if negb (Nat.eqb i (n - 1)) then [""] else []).

(** The second loop, [for i, r := range res], from index [i]. *)
Fixpoint print_rows (longest n i : nat) (rs : list Result) : list string :=
  match rs with
  | [] => []
  | r :: rest => row_lines longest n i r ++ print_rows longest n (S i) rest
  end.

Definition output_plain (res : slice Result) : list string :=
  print_rows (longest_of res) (List.length (elems res)) 0 (elems res).

(** How the printed text is laid out, stated without the index: the
    body of each row, the bodies separated by one empty line. *)
Definition row_body (longest : nat) (r : Result) : list string :=
  match elems (Implementers r) with
  | [] => ["No implementing types."]
  | ris => map (fun ri => pad longest (base_of (ri_Pos ri) ++ sep) ++ ri_Name ri) ris
  end.

Fixpoint join_blocks (bs : list (list string)) : list string :=
  match bs with
  | [] => []
  | [b] => b
  | b :: rest => b ++ [""] ++ join_blocks rest
  end.

(** The width [len(path)+len(sep)] of one implementer's line prefix. *)
Definition width (ri : ResultIdentifier) : nat :=
  String.length (base_of (ri_Pos ri)) + String.length sep.

End Output.

(** Implementers that are not interfaces: what [select_implementers] keeps
    with [concreteOnly]. *)
Definition not_interface (o : ObjectIdent) : bool := negb (isInterface (oi_type o)).

(** ** Measures and invariants of the goroutines of [getObjects] *)

Section GetObjectsRunsDefs.
Context {V : Type}.

(** A measure that every communication decreases. *)
Definition fwd_w (f : FwdSt V) : nat := match f with FRecv => 1 | FSend _ => 2 | FDone => 0 end.
Definition emit_w (e : option (list V)) : nat := match e with Some l => 1 + 3 * List.length l | None => 0 end.
Definition err_w (e : option (option error)) : nat := match e with Some _ => 1 | None => 0 end.
Definition unit_w (u : UnitSt V) : nat := err_w (u_err u) + emit_w (u_emit u) + fwd_w (u_fwd u).
Definition main_w (m : MainSt V) : nat := match m with MLoop _ => 1 | MReturn _ _ => 0 end.
Definition measure (s : St V) : nat :=
  main_w (st_main s) + (if st_xclosed s then 0 else 1) + list_sum (map unit_w (st_units s)).

Definition is_loop (m : MainSt V) : bool := match m with MLoop _ => true | MReturn _ _ => false end.

(** What the packages still have to deliver: a value held by the
    forwarder, then the values still to be sent on [c]. *)
Definition pending (u : UnitSt V) : list V :=
  (match u_fwd u with FSend v => [v] | _ => [] end) ++
  (match u_emit u with Some l => l | None => [] end).

Definition sent (o : UnitOutcome V) : list V := match o with UFail _ => [] | UOk vs => vs end.

Definition unit_inv2 (loop : bool) (o : UnitOutcome V) (u : UnitSt V) : Prop :=
  match o with
  | UFail e => loop = true -> u_err u = Some (Some e)
  | UOk _ => u_emit u = None <-> u_closed u = true
  end.

Definition getObjects_inv2 (outs : list (UnitOutcome V)) (s : St V) : Prop :=
  Forall2 (unit_inv2 (is_loop (st_main s))) outs (st_units s) /\
  match st_main s with
  | MLoop res | MReturn res None =>
      Permutation (elems res ++ List.concat (map pending (st_units s))) (List.concat (map sent outs))
  | MReturn _ (Some _) => True
  end.

(** A run of one package that succeeded, and whose [nil] error has not
    been received yet: all its values are forwarded and received, [c]
    is closed and the forwarder finishes. *)
Definition done_unit : UnitSt V := mkUnitSt (Some None) None true FDone.

(** The result of receiving, in order, all the values of each package. *)
Definition collect (vss : list (list V)) (res : slice V) : slice V :=
  fold_left (fun r vs => fold_left sappend vs r) vss res.

End GetObjectsRunsDefs.

(* ================================================================== *)
(** * Proofs *)

Close Scope string_scope.

(** ** The seen table *)

Section Scan.
Context (iface : ObjectIdent) (in_ : Char) (c : bool).

Lemma scan_objects_spec (objs : list ObjectIdent) :
  forall (seen : gmap Char CharSet) (V : CharSet) (xs : list ResultIdentifier),
  seen !! in_ = Some V ->
  scan_objects iface in_ c objs seen (SMade xs) =
    (<[in_ := V ∪ list_to_set (map NewChar objs)]> seen,
     SMade (xs ++ map NewResultIdentifier (select_implementers iface c objs V))).
Proof.
  induction objs as [|obj rest IH]; intros seen V xs Hin; simpl.
  - rewrite app_nil_r, union_empty_r_L, insert_id; done.
  - unfold seen_at. rewrite Hin.
    case_bool_decide as Ho.
    + rewrite (IH seen V xs Hin). do 2 f_equal. set_solver.
    + assert (Hin' : <[in_ := {[NewChar obj]} ∪ V]> seen !! in_ = Some ({[NewChar obj]} ∪ V))
        by apply lookup_insert_eq.
      unfold candidate_ok.
      destruct (c && isInterface (oi_type obj)) eqn:Hc; simpl;
        [|destruct (intuitiveImplements obj iface) eqn:Hi; simpl];
        unfold sappend; simpl; rewrite (IH _ _ _ Hin'), insert_insert_eq;
        rewrite <- ?app_assoc; simpl;
        (f_equal; [f_equal; set_solver | ..]); try done.
Qed.

End Scan.

Lemma scan_interfaces_spec (objs : list ObjectIdent) (c : bool) (ifaces : list ObjectIdent) :
  forall (seen : gmap Char CharSet) (res : slice Result),
  elems (scan_interfaces ifaces objs c seen res) =
    elems res ++ map (result_row objs c) (dedup_interfaces ifaces (dom seen)).
Proof.
  induction ifaces as [|i rest IH]; intros seen res; simpl.
  - rewrite app_nil_r. done.
  - case_bool_decide as Hi.
    + apply elem_of_dom in Hi as [v Hv]. rewrite Hv. apply IH.
    + rewrite not_elem_of_dom in Hi. rewrite Hi.
      rewrite (scan_objects_spec i (NewChar i) c objs (<[NewChar i := ∅]> seen) ∅ []
                 ltac:(apply lookup_insert_eq)).
      rewrite IH. unfold sappend. simpl.
      rewrite !dom_insert_L, <- app_assoc. simpl.
      replace ({[NewChar i]} ∪ ({[NewChar i]} ∪ dom seen)) with ({[NewChar i]} ∪ dom seen) by set_solver.
      done.
Qed.

Theorem findImplementers_spec (objs : list ObjectIdent) (t : string) (c : bool) :
  elems (findImplementers objs t c) =
    map (result_row objs c) (dedup_interfaces (filterInterfaces objs t) ∅).
Proof.
  unfold findImplementers. rewrite scan_interfaces_spec, dom_empty_L. done.
Qed.

(** ** Properties of the selected candidates and rows *)

Lemma elem_of_map_inv {A B} (f : A -> B) (l : list A) (y : B) :
  y ∈ map f l -> exists x, y = f x /\ x ∈ l.
Proof.
  rewrite list_elem_of_In, in_map_iff. intros (x & <- & Hx).
  exists x. split; [done|by apply list_elem_of_In].
Qed.

Lemma elem_of_map_intro {A B} (f : A -> B) (l : list A) (x : A) :
  x ∈ l -> f x ∈ map f l.
Proof. rewrite !list_elem_of_In. apply in_map. Qed.

Lemma select_implementers_sub (i : ObjectIdent) (c : bool) (objs : list ObjectIdent) :
  forall (V : gset Char) (x : ObjectIdent),
  x ∈ select_implementers i c objs V ->
  x ∈ objs /\ candidate_ok c i x = true /\ NewChar x ∉ V.
Proof.
  induction objs as [|obj rest IH]; intros V x Hx; simpl in Hx.
  - by apply not_elem_of_nil in Hx.
  - case_bool_decide as Ho.
    + destruct (IH V x Hx) as (? & ? & ?). split_and!; [by apply elem_of_cons; right|done|done].
    + destruct (candidate_ok c i obj) eqn:Hok.
      * apply elem_of_cons in Hx as [->|Hx].
        -- split_and!; [apply elem_of_cons; by left|done|done].
        -- destruct (IH _ x Hx) as (? & ? & ?).
           split_and!; [by apply elem_of_cons; right|done|set_solver].
      * destruct (IH _ x Hx) as (? & ? & ?).
        split_and!; [by apply elem_of_cons; right|done|set_solver].
Qed.

Lemma select_implementers_nodup (i : ObjectIdent) (c : bool) (objs : list ObjectIdent) :
  forall (V : gset Char), NoDup (map NewChar (select_implementers i c objs V)).
Proof.
  induction objs as [|obj rest IH]; intros V; simpl.
  - constructor.
  - case_bool_decide as Ho; [apply IH|].
    destruct (candidate_ok c i obj); [|apply IH].
    simpl. constructor; [|apply IH].
    intros Hin. apply elem_of_map_inv in Hin as (y & Hy & Hyin).
    apply select_implementers_sub in Hyin as (_ & _ & Hy').
    apply Hy'. rewrite <- Hy. set_solver.
Qed.

Lemma dedup_interfaces_sub (l : list ObjectIdent) :
  forall (D : gset Char) (x : ObjectIdent),
  x ∈ dedup_interfaces l D -> x ∈ l /\ NewChar x ∉ D.
Proof.
  induction l as [|i rest IH]; intros D x Hx; simpl in Hx.
  - by apply not_elem_of_nil in Hx.
  - case_bool_decide as Hi.
    + destruct (IH D x Hx). split; [by apply elem_of_cons; right|done].
    + apply elem_of_cons in Hx as [->|Hx].
      * split; [apply elem_of_cons; by left|done].
      * destruct (IH _ x Hx). split; [by apply elem_of_cons; right|set_solver].
Qed.

Lemma dedup_interfaces_nodup (l : list ObjectIdent) :
  forall (D : gset Char), NoDup (map NewChar (dedup_interfaces l D)).
Proof.
  induction l as [|i rest IH]; intros D; simpl.
  - constructor.
  - case_bool_decide as Hi; [apply IH|].
    simpl. constructor; [|apply IH].
    intros Hin. apply elem_of_map_inv in Hin as (y & Hy & Hyin).
    apply dedup_interfaces_sub in Hyin as (_ & Hy').
    apply Hy'. rewrite <- Hy. set_solver.
Qed.

Lemma dedup_interfaces_cover (l : list ObjectIdent) :
  forall (D : gset Char),
  Forall (fun x => NewChar x ∈ D \/ NewChar x ∈ map NewChar (dedup_interfaces l D)) l.
Proof.
  induction l as [|i rest IH]; intros D; simpl; constructor.
  - case_bool_decide as Hi; [by left|right; simpl; apply elem_of_cons; by left].
  - case_bool_decide as Hi.
    + apply IH.
    + eapply Forall_impl; [apply (IH ({[NewChar i]} ∪ D))|].
      intros x [Hx|Hx]; simpl.
      * apply elem_of_union in Hx as [Hx|Hx]; [|by left].
        apply elem_of_singleton in Hx. rewrite Hx. right. apply elem_of_cons. by left.
      * right. apply elem_of_cons. by right.
Qed.

Lemma intuitiveImplements_same_char (obj iface : ObjectIdent) :
  NewChar obj = NewChar iface -> intuitiveImplements obj iface = false.
Proof. intros H. unfold intuitiveImplements. by rewrite decide_True. Qed.

Lemma findImplementers_rows (objs : list ObjectIdent) (t : string) (c : bool) :
  Forall (fun r => exists i, i ∈ dedup_interfaces (filterInterfaces objs t) ∅ /\ r = result_row objs c i)
         (elems (findImplementers objs t c)).
Proof.
  rewrite findImplementers_spec, Forall_forall. intros r Hr.
  apply elem_of_map_inv in Hr as (i & -> & Hi). eauto.
Qed.

(** ** Claims on findImplementers *)

(** C1: no candidate with the selected interface's identity (package and
    type string, [NewChar]) is ever among that interface's implementers,
    however self-compatible it is; in particular the interface itself is
    never among them. *)
Theorem findImplementers_no_self (objs : list ObjectIdent) (t : string) (c : bool) :
  Forall (fun r => exists i,
            i ∈ filterInterfaces objs t /\ r = result_row objs c i /\
            (i ∉ select_implementers i c objs ∅) /\
            Forall (fun x => NewChar x <> NewChar i) (select_implementers i c objs ∅))
         (elems (findImplementers objs t c)).
Proof.
  eapply Forall_impl; [apply findImplementers_rows|].
  intros r (i & Hi & ->). exists i.
  assert (Hsel : Forall (fun x => NewChar x <> NewChar i) (select_implementers i c objs ∅)).
  { apply Forall_forall. intros x Hx Heq.
    apply select_implementers_sub in Hx as (_ & Hok & _).
    unfold candidate_ok in Hok. rewrite intuitiveImplements_same_char in Hok by done.
    by rewrite andb_false_r in Hok. }
  split_and!; [by apply dedup_interfaces_sub in Hi as [? _]|done| |done].
  intros Hin. rewrite Forall_forall in Hsel. by apply (Hsel i Hin).
Qed.

(** C2: one result row per distinct interface identity, and within a
    row each candidate identity at most once (the seen table). *)
Theorem findImplementers_dedup (objs : list ObjectIdent) (t : string) (c : bool) :
  let ifs := dedup_interfaces (filterInterfaces objs t) ∅ in
  elems (findImplementers objs t c) = map (result_row objs c) ifs /\
  NoDup (map NewChar ifs) /\
  Forall (fun i => NoDup (map NewChar (select_implementers i c objs ∅))) ifs.
Proof.
  simpl. split_and!.
  - apply findImplementers_spec.
  - apply dedup_interfaces_nodup.
  - apply Forall_forall. intros i _. apply select_implementers_nodup.
Qed.

(** C3: with concreteOnly set, no implementer has an interface type. *)
Theorem findImplementers_concrete_only (objs : list ObjectIdent) (t : string) :
  Forall (fun r => exists i,
            i ∈ filterInterfaces objs t /\ r = result_row objs true i /\
            Forall (fun x => isInterface (oi_type x) = false) (select_implementers i true objs ∅))
         (elems (findImplementers objs t true)).
Proof.
  eapply Forall_impl; [apply findImplementers_rows|].
  intros r (i & Hi & ->). exists i.
  split_and!; [by apply dedup_interfaces_sub in Hi as [? _]|done|].
  apply Forall_forall. intros x Hx.
  apply select_implementers_sub in Hx as (_ & Hok & _).
  unfold candidate_ok in Hok. simpl in Hok.
  by destruct (isInterface (oi_type x)).
Qed.

(** C10: exactly one row for each distinct identity among the interfaces
    matching the target; each row's Implementers is a made (non-nil)
    slice, empty when no candidate qualifies for the interface. *)
Theorem findImplementers_one_row_per_interface (objs : list ObjectIdent) (t : string) (c : bool) :
  let ifs := dedup_interfaces (filterInterfaces objs t) ∅ in
  elems (findImplementers objs t c) = map (result_row objs c) ifs /\
  NoDup (map NewChar ifs) /\
  Forall (fun i => i ∈ filterInterfaces objs t) ifs /\
  Forall (fun i => NewChar i ∈ map NewChar ifs) (filterInterfaces objs t) /\
  Forall (fun r => exists i xs,
            i ∈ ifs /\ Interface r = NewResultIdentifier i /\ Implementers r = SMade xs /\
            (xs = [] \/ Exists (fun x => candidate_ok c i x = true) objs))
         (elems (findImplementers objs t c)).
Proof.
  simpl. split_and!.
  - apply findImplementers_spec.
  - apply dedup_interfaces_nodup.
  - apply Forall_forall. intros i Hi. by apply dedup_interfaces_sub in Hi as [? _].
  - eapply Forall_impl; [apply (dedup_interfaces_cover _ ∅)|].
    intros x [Hx|Hx]; [by apply not_elem_of_empty in Hx|done].
  - eapply Forall_impl; [apply findImplementers_rows|].
    intros r (i & Hi & ->).
    exists i, (map NewResultIdentifier (select_implementers i c objs ∅)).
    split_and!; [done|done|done|].
    destruct (select_implementers i c objs ∅) as [|x xs] eqn:Hs; [by left|right].
    apply Exists_exists. exists x.
    assert (Hx : x ∈ select_implementers i c objs ∅) by (rewrite Hs; apply elem_of_cons; by left).
    apply select_implementers_sub in Hx as (? & ? & _). done.
Qed.

(** ** The file1.go scenario, for every iteration order of [info.Defs] *)

Lemma consistentb_spec (objs : list ObjectIdent) (i : ObjectIdent) (c : bool) :
  consistentb objs i c = true ->
  forall x y, x ∈ objs -> y ∈ objs -> NewChar x = NewChar y ->
  candidate_ok c i x = candidate_ok c i y.
Proof.
  unfold consistentb. rewrite forallb_forall. intros H x y Hx Hy Hxy.
  apply list_elem_of_In in Hx, Hy.
  specialize (H x Hx). rewrite forallb_forall in H. specialize (H y Hy).
  apply orb_true_iff in H as [H|H].
  - rewrite bool_decide_eq_true_2 in H by done. discriminate.
  - by apply Bool.eqb_prop.
Qed.

Lemma select_implementers_chars (i : ObjectIdent) (c : bool) (objs : list ObjectIdent) :
  (forall x y, x ∈ objs -> y ∈ objs -> NewChar x = NewChar y ->
     candidate_ok c i x = candidate_ok c i y) ->
  forall (V : gset Char) (k : Char),
  k ∈ map NewChar (select_implementers i c objs V) <->
  exists x, x ∈ objs /\ NewChar x = k /\ (k ∉ V) /\ candidate_ok c i x = true.
Proof.
  induction objs as [|obj rest IH]; intros Hcons V k; simpl.
  { split; [intros Hk; by apply not_elem_of_nil in Hk|intros (x & Hx & _); by apply not_elem_of_nil in Hx]. }
  assert (IH' := IH ltac:(intros x y Hx Hy; apply Hcons; by apply elem_of_cons; right)).
  case_bool_decide as Ho; [|destruct (candidate_ok c i obj) eqn:Hok; simpl].
  - rewrite IH'. split.
    + intros (x & ? & ? & ? & ?). exists x. split_and!; [by apply elem_of_cons; right|done..].
    + intros (x & Hx & Hxk & HkV & Hxok). apply elem_of_cons in Hx as [->|Hx]; [congruence|].
      exists x. done.
  - rewrite elem_of_cons, IH'. split.
    + intros [->|(x & ? & ? & ? & ?)].
      * exists obj. split_and!; [apply elem_of_cons; by left|done..].
      * exists x. split_and!; [by apply elem_of_cons; right|done|set_solver|done].
    + intros (x & Hx & Hxk & HkV & Hxok).
      destruct (decide (k = NewChar obj)) as [->|Hne]; [by left|right].
      apply elem_of_cons in Hx as [->|Hx]; [congruence|].
      exists x. split_and!; [done|done|set_solver|done].
  - rewrite IH'. split.
    + intros (x & ? & ? & ? & ?). exists x. split_and!; [by apply elem_of_cons; right|done|set_solver|done].
    + intros (x & Hx & Hxk & HkV & Hxok).
      assert (Hx' := Hx). apply elem_of_cons in Hx as [->|Hx]; [congruence|].
      destruct (decide (k = NewChar obj)) as [->|Hne].
      * rewrite (Hcons x obj Hx' ltac:(apply elem_of_cons; by left) Hxk) in Hxok. congruence.
      * exists x. split_and!; [done|done|set_solver|done].
Qed.

Lemma filterInterfaces_perm (l l' : list ObjectIdent) (t : string) :
  Permutation l l' -> Permutation (filterInterfaces l t) (filterInterfaces l' t).
Proof.
  unfold filterInterfaces. induction 1 as [|x l l' _ IH|x y l|l l' l'' _ IH1 _ IH2]; simpl.
  - constructor.
  - destruct (_ && _); [by constructor|done].
  - destruct (isInterface _ && _), (isInterface _ && _); try constructor; try done.
  - by transitivity (List.filter (fun o => isInterface (oi_type o) && String.eqb (TypeString (oi_type o)) t) l').
Qed.

Lemma NoDup_map_snd (p : nat) (l : list Char) :
  NoDup l -> Forall (fun k => fst k = p) l -> NoDup (map snd l).
Proof.
  induction 1 as [|[q s] l Hnin _ IH]; intros Hp; simpl; constructor.
  - intros Hin. apply elem_of_map_inv in Hin as ([q' s'] & Hs & Hin').
    inversion Hp as [|? ? Hq Hp']. rewrite Forall_forall in Hp'.
    specialize (Hp' _ Hin'). simpl in *. subst. by apply Hnin.
  - apply IH. by inversion Hp.
Qed.

Lemma implementer_names_perm (u objs : list ObjectIdent) (i : ObjectIdent) (c : bool)
    (p : nat) (target : list string) :
  Permutation objs u ->
  consistentb u i c = true ->
  Forall (fun x => oi_pkg x = p) u ->
  NoDup target ->
  (forall n, In n (map (fun x => TypeString (oi_type x)) (List.filter (candidate_ok c i) u)) <-> In n target) ->
  Permutation (map ri_Name (map NewResultIdentifier (select_implementers i c objs ∅))) target.
Proof.
  intros Hperm Hcons Hpkg Hnd Htarget.
  assert (Hcons' : forall x y, x ∈ objs -> y ∈ objs -> NewChar x = NewChar y ->
                     candidate_ok c i x = candidate_ok c i y).
  { intros x y Hx Hy. apply (consistentb_spec u); [done| |]; apply list_elem_of_In;
      [apply (Permutation_in x Hperm)|apply (Permutation_in y Hperm)]; by apply list_elem_of_In. }
  assert (Hnames : map ri_Name (map NewResultIdentifier (select_implementers i c objs ∅)) =
                   map snd (map NewChar (select_implementers i c objs ∅))).
  { rewrite !map_map. done. }
  rewrite Hnames. apply NoDup_Permutation; [|done|].
  - apply (NoDup_map_snd p); [apply select_implementers_nodup|].
    apply Forall_forall. intros k Hk. apply elem_of_map_inv in Hk as (x & -> & Hx).
    apply select_implementers_sub in Hx as (Hx & _).
    rewrite Forall_forall in Hpkg. apply Hpkg.
    apply list_elem_of_In, (Permutation_in x Hperm). by apply list_elem_of_In.
  - intros n. transitivity (In n target); [|symmetry; apply list_elem_of_In].
    rewrite <- Htarget, <- list_elem_of_In. split.
    + intros Hn. apply elem_of_map_inv in Hn as (k & -> & Hk).
      apply (select_implementers_chars i c objs Hcons') in Hk as (x & Hx & <- & _ & Hok).
      apply list_elem_of_In, in_map_iff. exists x. split; [done|].
      apply filter_In. split; [|done]. apply (Permutation_in x Hperm). by apply list_elem_of_In.
    + intros Hn. apply list_elem_of_In, in_map_iff in Hn as (x & <- & Hx).
      apply filter_In in Hx as [Hx Hok].
      apply (elem_of_map_intro snd _ (NewChar x)).
      apply (select_implementers_chars i c objs Hcons'). exists x.
      split_and!; [|done|set_solver|done].
      apply list_elem_of_In, (Permutation_in x (Permutation_sym Hperm)), Hx.
Qed.

Lemma dedup_interfaces_single (x : ObjectIdent) : dedup_interfaces [x] ∅ = [x].
Proof. simpl. rewrite bool_decide_eq_false_2 by set_solver. done. Qed.

Lemma filterInterfaces_perm_single (objs u : list ObjectIdent) (t : string) (x : ObjectIdent) :
  Permutation objs u -> filterInterfaces u t = [x] -> filterInterfaces objs t = [x].
Proof.
  intros Hperm Hu. apply Permutation_length_1_inv.
  rewrite <- Hu. symmetry. by apply filterInterfaces_perm.
Qed.

Lemma universe_file1_pkg : Forall (fun x => oi_pkg x = Testdata.pkg) Testdata.universe_file1.
Proof. vm_compute. repeat constructor. Qed.

(** C4: on the objects of internal/testdata/file1.go, in whatever order
    the type checker's Defs map yields them, [testpkg.Foo] gets one row
    whose implementers are exactly [*testpkg.Zaphod] and
    [testpkg.Planet] (only [*testpkg.Zaphod] with concreteOnly), and
    [testpkg.Baz] gets one row with no implementers. *)
Theorem file1_scenario (objs : list ObjectIdent) (Hperm : Permutation objs Testdata.universe_file1) :
  (exists r, elems (findImplementers objs "testpkg.Foo"%string false) = [r] /\
     ri_Name (Interface r) = "testpkg.Foo"%string /\
     Permutation (map ri_Name (elems (Implementers r)))
                 ["*testpkg.Zaphod"; "testpkg.Planet"]%string) /\
  (exists r, elems (findImplementers objs "testpkg.Foo"%string true) = [r] /\
     ri_Name (Interface r) = "testpkg.Foo"%string /\
     Permutation (map ri_Name (elems (Implementers r))) ["*testpkg.Zaphod"]%string) /\
  (forall c, exists r, elems (findImplementers objs "testpkg.Baz"%string c) = [r] /\
     ri_Name (Interface r) = "testpkg.Baz"%string /\ elems (Implementers r) = []).
Proof.
  rewrite !findImplementers_spec.
  rewrite (filterInterfaces_perm_single objs Testdata.universe_file1 "testpkg.Foo"%string Testdata.Foo_obj Hperm)
    by reflexivity.
  rewrite !dedup_interfaces_single. simpl map.
  split_and!.
  - eexists. split_and!; [reflexivity|reflexivity|].
    cbn [result_row Implementers elems].
    apply (implementer_names_perm Testdata.universe_file1 objs _ _ Testdata.pkg); try done.
    + apply universe_file1_pkg.
    + apply (bool_decide_unpack _). vm_compute. reflexivity.
    + intros n. vm_compute. tauto.
  - eexists. split_and!; [reflexivity|reflexivity|].
    cbn [result_row Implementers elems].
    apply (implementer_names_perm Testdata.universe_file1 objs _ _ Testdata.pkg); try done.
    + apply universe_file1_pkg.
    + apply (bool_decide_unpack _). vm_compute. reflexivity.
    + intros n. vm_compute. tauto.
  - intros c. rewrite findImplementers_spec.
    rewrite (filterInterfaces_perm_single objs Testdata.universe_file1 "testpkg.Baz"%string
               Testdata.Baz_obj Hperm) by reflexivity.
    rewrite dedup_interfaces_single. simpl map.
    eexists. split_and!; [reflexivity|reflexivity|].
    cbn [result_row Implementers elems].
    apply (map_eq_nil ri_Name), Permutation_nil, Permutation_sym.
    apply (implementer_names_perm Testdata.universe_file1 objs _ _ Testdata.pkg []); try done.
    + destruct c; vm_compute; reflexivity.
    + apply universe_file1_pkg.
    + constructor.
    + intros n. destruct c; vm_compute; tauto.
Qed.

(** ** getObjects *)

Section GetObjectsProofs.
Context {V : Type}.

Lemma Forall2_unit_inv_update (outs : list (UnitOutcome V)) (us : list (UnitSt V))
    (k : nat) (u u' : UnitSt V) :
  Forall2 unit_inv outs us -> us !! k = Some u ->
  (forall o, unit_inv o u -> unit_inv o u') ->
  Forall2 unit_inv outs (<[k := u']> us).
Proof.
  intros Hall Hk Hu.
  destruct (Forall2_lookup_r _ _ _ _ _ Hall Hk) as (o & Ho & Hinv).
  rewrite <- (list_insert_id outs k o Ho). apply Forall2_insert; auto.
Qed.

Lemma getObjects_inv_init (outs : list (UnitOutcome V)) :
  getObjects_inv outs (getObjects_init outs).
Proof.
  split_and!; simpl; [|discriminate|done].
  induction outs as [|o outs IH]; simpl; constructor; [|done].
  destruct o; unfold unit_inv; simpl; split_and!; try discriminate; auto.
Qed.

Ltac fwd_done_contra :=
  match goal with
  | Hx : ?xc = true -> Forall _ ?us, Hk : ?us !! _ = Some ?u, Hf : u_fwd ?u = ?f |- _ =>
      destruct xc; [specialize (Hx eq_refl);
                    rewrite (Forall_lookup_1 _ _ _ _ Hx Hk) in Hf; discriminate|discriminate]
  end.

Lemma getObjects_inv_step (outs : list (UnitOutcome V)) (s s' : St V) :
  getObjects_inv outs s -> step s s' -> getObjects_inv outs s'.
Proof.
  intros (Hunits & Hx & Hmain) Hstep.
  destruct Hstep as [k u v res us xc Hk Hf|res us|k u res us xc Hk He|k u e res us xc Hk He
                    |k u v vs m us xc Hk Hf He|k u m us xc Hk He|k u m us xc Hk Hf Hc|m us Hall];
    unfold getObjects_inv, main_inv in *; simpl in *.
  - split_and!; [|fwd_done_contra|done].
    apply (Forall2_unit_inv_update _ _ _ u); [done..|].
    intros o [_ Ho]. split; [discriminate|by destruct o].
  - split_and!; auto.
  - split_and!; [| |done].
    + apply (Forall2_unit_inv_update _ _ _ u); [done..|].
      intros o [Hd Ho]. split; [done|]. destruct o; simpl; naive_solver.
    + intros Hxc. specialize (Hx Hxc). apply Forall_insert; [done|].
      exact (Forall_lookup_1 _ _ _ _ Hx Hk).
  - destruct (Forall2_lookup_r _ _ _ _ _ Hunits Hk) as (o & Ho & [_ Hinv]).
    split_and!.
    + apply (Forall2_unit_inv_update _ _ _ u); [done..|].
      intros o' [Hd Ho']. split; [done|]. destruct o'; simpl; naive_solver.
    + intros Hxc. specialize (Hx Hxc). apply Forall_insert; [done|].
      exact (Forall_lookup_1 _ _ _ _ Hx Hk).
    + done.
    + destruct o as [e'|vs]; rewrite He in Hinv.
      * destruct Hinv as (_ & _ & [[= ->]|?]); [|discriminate].
        by apply list_elem_of_lookup_2 with k.
      * destruct Hinv; discriminate.
  - split_and!; [|fwd_done_contra|done].
    apply (Forall2_unit_inv_update _ _ _ u); [done..|].
    intros o [_ Ho]. split; [discriminate|]. destruct o; simpl; [|done].
    destruct Ho as (_ & Hn & _). congruence.
  - split_and!; [| |done].
    + apply (Forall2_unit_inv_update _ _ _ u); [done..|].
      intros o [_ Ho]. split; [done|]. destruct o; simpl; [|done].
      destruct Ho as (_ & Hn & _). congruence.
    + intros Hxc. specialize (Hx Hxc). apply Forall_insert; [done|].
      exact (Forall_lookup_1 _ _ _ _ Hx Hk).
  - split_and!; [|fwd_done_contra|done].
    apply (Forall2_unit_inv_update _ _ _ u); [done..|].
    intros o [_ Ho]. split; [done|]. destruct o; simpl; [|done].
    destruct Ho as (Hc' & _). congruence.
  - split_and!; [done|done|]. destruct m as [|res [e|]]; done.
Qed.

Lemma getObjects_inv_reach (outs : list (UnitOutcome V)) (s : St V) :
  rtc step (getObjects_init outs) s -> getObjects_inv outs s.
Proof.
  intros Hr. assert (Hi := getObjects_inv_init outs). revert Hi.
  induction Hr as [|x y z Hxy _ IH]; [done|].
  intros Hx. apply IH. by apply (getObjects_inv_step _ x y).
Qed.

End GetObjectsProofs.

Section GetObjectsClaims.
Context {V : Type}.

Lemma still_blocked_refl (us : list (UnitSt V)) : Forall2 still_blocked us us.
Proof. induction us; constructor; [split; auto|done]. Qed.

Lemma still_blocked_trans (us1 us2 us3 : list (UnitSt V)) :
  Forall2 still_blocked us1 us2 -> Forall2 still_blocked us2 us3 -> Forall2 still_blocked us1 us3.
Proof.
  intros H12. revert us3. induction H12 as [|u1 u2 l1 l2 [He1 Hf1] _ IH]; intros us3 H23;
    inversion H23 as [|? u3 ? l3 [He2 Hf2] H23']; subst; constructor; auto.
  split; [congruence|auto].
Qed.

Lemma step_after_return (s s' : St V) (res : slice V) (err : option error) :
  st_main s = MReturn res err -> step s s' ->
  st_main s' = st_main s /\ Forall2 still_blocked (st_units s) (st_units s').
Proof.
  intros Hret Hstep.
  destruct Hstep as [k u v res' us xc Hk Hf|res' us|k u res' us xc Hk He|k u e res' us xc Hk He
                    |k u v vs m us xc Hk Hf He|k u m us xc Hk He|k u m us xc Hk Hf Hc|m us Hall];
    simpl in *; try discriminate; split; try done;
    try apply still_blocked_refl;
    rewrite <- (list_insert_id us k u Hk) at 1; apply Forall2_insert;
    try apply still_blocked_refl; split; simpl; try done; intros w Hw; congruence.
Qed.

Lemma return_freezes_units (s s' : St V) (res : slice V) (err : option error) :
  st_main s = MReturn res err -> rtc step s s' ->
  st_main s' = MReturn res err /\ Forall2 still_blocked (st_units s) (st_units s').
Proof.
  intros Hret Hr. induction Hr as [x|x y z Hxy _ IH].
  - split; [done|apply still_blocked_refl].
  - destruct (step_after_return x y res err Hret Hxy) as [Hm Hu].
    rewrite Hret in Hm. destruct (IH Hm) as [Hm' Hu'].
    split; [done|]. by apply still_blocked_trans with (st_units y).
Qed.

(** C5: when the resolution of some package fails, whenever
    [getObjects] returns it returns a nil list together with an error
    that one of the failing packages produced: no partial list is
    returned alongside an error, and no list at all is returned without
    an error. *)
Theorem getObjects_failure_aborts (outs : list (UnitOutcome V)) (s : St V)
    (res : slice V) (err : option error)
    (Hfail : Exists (fun o => exists e, o = UFail e) outs)
    (Hreach : rtc step (getObjects_init outs) s)
    (Hret : st_main s = MReturn res err) :
  res = SNil /\ exists e, err = Some e /\ UFail e ∈ outs.
Proof.
  destruct (getObjects_inv_reach outs s Hreach) as (Hunits & Hx & Hmain).
  unfold main_inv in Hmain. rewrite Hret in Hmain.
  destruct err as [e|].
  - destruct Hmain as [-> He]. eauto.
  - exfalso. apply Exists_exists in Hfail as (o & Ho & e & ->).
    apply list_elem_of_lookup_1 in Ho as [k Hk].
    destruct (Forall2_lookup_l _ _ _ _ _ Hunits Hk) as (u & Hu & [Hd (Hc & _)]).
    specialize (Hx Hmain). rewrite (Hd (Forall_lookup_1 _ _ _ _ Hx Hu)) in Hc. discriminate.
Qed.

(** C9 (as the code does it): once [getObjects] has returned, nothing
    receives from [errCh] or from [converge]'s output any more, so every
    package goroutine whose send on [errCh] is still pending, and every
    forwarder holding a value, stays blocked forever. *)
Theorem getObjects_return_leaves_blocked (s s' : St V) (res : slice V) (err : option error)
    (Hret : st_main s = MReturn res err) (Hreach : rtc step s s') :
  st_main s' = MReturn res err /\ Forall2 still_blocked (st_units s) (st_units s').
Proof. exact (return_freezes_units s s' res err Hret Hreach). Qed.

End GetObjectsClaims.

Lemma c9_reach : rtc step (getObjects_init c9_outs) c9_returned.
Proof.
  apply rtc_once.
  change (step (mkSt (MLoop SNil) (map unit_init c9_outs) false)
    (mkSt (MReturn SNil (Some c9_error))
       (<[0:=set_err (unit_init (UFail c9_error)) None]> (map unit_init c9_outs)) false)).
  apply step_recv_err; reflexivity.
Qed.

(** C9 fails: with one failing and one succeeding package, [getObjects]
    can return the failure while the succeeding package's goroutine has
    not yet sent its [nil] on [errCh]; that send then never happens, in
    every continuation. *)
Lemma getObjects_does_not_drain :
  exists s : St nat,
    rtc step (getObjects_init c9_outs) s /\ st_main s = MReturn SNil (Some c9_error) /\
    forall s', rtc step s s' ->
      st_main s' = MReturn SNil (Some c9_error) /\
      exists u, st_units s' !! 1 = Some u /\ u_err u = Some None.
Proof.
  exists c9_returned. split_and!; [apply c9_reach|reflexivity|].
  intros s' Hr. destruct (return_freezes_units c9_returned s' _ _ eq_refl Hr) as [Hm Hu].
  split; [done|].
  destruct (Forall2_lookup_l _ _ _ _ _ Hu (eq_refl : st_units c9_returned !! 1 = Some (unit_init (UOk [7]))))
    as (u & Hu1 & [He _]).
  exists u. split; [done|]. rewrite He. reflexivity.
Qed.

Lemma getObjects_failure_aborts_witness :
  Exists (fun o => exists e, o = UFail e) c9_outs /\
  rtc step (getObjects_init c9_outs) c9_returned /\
  st_main c9_returned = MReturn SNil (Some c9_error) /\
  ((SNil : slice nat) = SNil /\ exists e, Some c9_error = Some e /\ UFail e ∈ c9_outs).
Proof.
  assert (Hf : Exists (fun o => exists e, o = UFail e) c9_outs)
    by (constructor; eexists; reflexivity).
  split; [exact Hf|]. split; [apply c9_reach|]. split; [reflexivity|].
  exact (getObjects_failure_aborts c9_outs c9_returned SNil (Some c9_error) Hf c9_reach eq_refl).
Defined.

Lemma getObjects_return_leaves_blocked_witness :
  st_main c9_returned = MReturn SNil (Some c9_error) /\
  rtc step c9_returned c9_returned /\
  (st_main c9_returned = MReturn SNil (Some c9_error) /\
   Forall2 still_blocked (st_units c9_returned) (st_units c9_returned)).
Proof.
  split; [reflexivity|]. split; [apply rtc_refl|].
  exact (getObjects_return_leaves_blocked c9_returned c9_returned SNil (Some c9_error)
           eq_refl (rtc_refl _ _)).
Defined.

Lemma file1_scenario_witness :
  Permutation (rev Testdata.universe_file1) Testdata.universe_file1 /\
  (exists r, elems (findImplementers (rev Testdata.universe_file1) "testpkg.Foo"%string false) = [r] /\
     ri_Name (Interface r) = "testpkg.Foo"%string /\
     Permutation (map ri_Name (elems (Implementers r)))
                 ["*testpkg.Zaphod"; "testpkg.Planet"]%string).
Proof.
  assert (Hp : Permutation (rev Testdata.universe_file1) Testdata.universe_file1)
    by (apply Permutation_sym, Permutation_rev).
  split; [exact Hp|].
  exact (proj1 (file1_scenario (rev Testdata.universe_file1) Hp)).
Defined.





Lemma string_append_assoc (a b c : string) :
  String.append (String.append a b) c = String.append a (String.append b c).
Proof. induction a as [|ch a IH]; [reflexivity|exact (f_equal (String ch) IH)]. Qed.

(** C7 (as the code does it): re-wrapping a wrapped error repeats the
    inner context: the message of [wrapErr(m2, wrapErr(m1, e))] for an
    unwrapped [e] is [m2: m1: m1: ] followed by [e]'s message, as
    [wrapErr] copies [m1] into the outer message and [Error] prints the
    inner error, [m1] included, again. *)
Theorem wrapErr_rewrap_message (m1 m2 s : string) :
  Error (wrapErr m2 (wrapErr m1 (ErrString s))) =
    (m2 ++ ": " ++ m1 ++ ": " ++ m1 ++ ": " ++ s)%string /\
  Error (wrapErr "a" (wrapErr "b" (ErrString "c"))) = "a: b: b: c"%string.
Proof.
  split; [|reflexivity].
  change (Error (wrapErr m2 (wrapErr m1 (ErrString s))))
    with ((m2 ++ ": " ++ m1) ++ ": " ++ (m1 ++ ": " ++ s))%string.
  by rewrite !string_append_assoc.
Qed.

(** C8: [findDef] sees through any number of pointer wrappers, so
    [NewResultIdentifier] reports for [*T] (or [**T], ...) the position
    it reports for [T]. *)
Theorem findDef_pointer (n : nat) (t : Ty) :
  findDef (Nat.iter n TPointer t) = findDef t /\
  forall k p nm pos ident fset,
    ri_Pos (NewResultIdentifier (mkObjectIdent (mkObject k p nm (Nat.iter n TPointer t) pos) ident fset)) =
    ri_Pos (NewResultIdentifier (mkObjectIdent (mkObject k p nm t pos) ident fset)).
Proof.
  assert (Hd : findDef (Nat.iter n TPointer t) = findDef t)
    by (induction n as [|n IH]; [done|exact IH]).
  split; [exact Hd|]. intros.
  cbv [NewResultIdentifier ri_Pos oi_fset oi_type oi_obj obj_type]. by rewrite Hd.
Qed.

(* ================================================================== *)
(** * Further properties of the code *)

(** ** findImplementers: nil result, row names, concrete-only, duplicates *)

Lemma scan_interfaces_made (ifaces objs : list ObjectIdent) (c : bool) :
  forall seen xs, exists ys, scan_interfaces ifaces objs c seen (SMade xs) = SMade ys.
Proof.
  induction ifaces as [|i rest IH]; intros seen xs; simpl; [eauto|].
  destruct (seen !! NewChar i); [apply IH|].
  destruct (scan_objects _ _ _ _ _ _). apply IH.
Qed.

Lemma findImplementers_shape (objs : list ObjectIdent) (t : string) (c : bool) :
  findImplementers objs t c =
    match filterInterfaces objs t with
    | [] => SNil
    | _ => SMade (elems (findImplementers objs t c))
    end.
Proof.
  destruct (filterInterfaces objs t) as [|i rest] eqn:Hf.
  - unfold findImplementers. by rewrite Hf.
  - assert (Hm : exists ys, findImplementers objs t c = SMade ys).
    { unfold findImplementers. rewrite Hf. simpl. rewrite lookup_empty.
      destruct (scan_objects _ _ _ _ _ _). apply scan_interfaces_made. }
    destruct Hm as [ys Hys]. by rewrite Hys.
Qed.

(** [findImplementers] returns a nil slice (serialised by [json] as
    [null]) exactly when no object of the universe is an interface whose
    type string is the target; as soon as one matches, it returns a made
    slice. *)
Theorem findImplementers_nil_iff (objs : list ObjectIdent) (t : string) (c : bool) :
  findImplementers objs t c = SNil <-> filterInterfaces objs t = [].
Proof.
  rewrite findImplementers_shape. destruct (filterInterfaces objs t); split; done.
Qed.

(** Every result row is about an interface named exactly as the target:
    its [Interface.Name] is the requested [targetInterface]. *)
Theorem findImplementers_row_names (objs : list ObjectIdent) (t : string) (c : bool) :
  Forall (fun r => ri_Name (Interface r) = t) (elems (findImplementers objs t c)).
Proof.
  eapply Forall_impl; [apply findImplementers_rows|].
  intros r (i & Hi & ->). apply dedup_interfaces_sub in Hi as [Hi _].
  unfold filterInterfaces in Hi. apply list_elem_of_In, filter_In in Hi as [_ Hi].
  apply andb_prop in Hi as [_ Hi]. by apply String.eqb_eq in Hi.
Qed.

Lemma select_implementers_concrete (i : ObjectIdent) (objs : list ObjectIdent) :
  forall V, select_implementers i true objs V =
            List.filter not_interface (select_implementers i false objs V).
Proof.
  induction objs as [|obj rest IH]; intros V; simpl; [done|].
  case_bool_decide; [apply IH|].
  unfold candidate_ok; simpl.
  assert (Hn : not_interface obj = negb (isInterface (oi_type obj))) by done.
  destruct (isInterface (oi_type obj)) eqn:Hi, (intuitiveImplements obj i); simpl;
    rewrite ?IH; simpl; rewrite ?Hn; done.
Qed.

Lemma sublist_filter_std {A} (f : A -> bool) (l : list A) :
  sublist (List.filter f l) l.
Proof.
  induction l as [|x l IH]; simpl; [constructor|].
  destruct (f x); [by apply sublist_skip|by apply sublist_cons].
Qed.

Lemma sublist_map_std {A B} (f : A -> B) (l1 l2 : list A) :
  sublist l1 l2 -> sublist (map f l1) (map f l2).
Proof. induction 1; simpl; by constructor. Qed.

Lemma Forall2_map_same {A B C} (f : A -> B) (g : A -> C) (P : B -> C -> Prop) (l : list A) :
  (forall x, x ∈ l -> P (f x) (g x)) -> Forall2 P (map f l) (map g l).
Proof.
  induction l as [|x l IH]; intros H; simpl; constructor.
  - apply H. apply elem_of_cons. by left.
  - apply IH. intros y Hy. apply H. by apply elem_of_cons; right.
Qed.

(** With [concreteOnly] set, [findImplementers] reports the same
    interfaces in the same order, and each row's implementers are those
    of the row without the option minus some entries (the interface
    types), in the same order. *)
Theorem findImplementers_concrete_sublist (objs : list ObjectIdent) (t : string) :
  Forall2 (fun rt rf => Interface rt = Interface rf /\
                        sublist (elems (Implementers rt)) (elems (Implementers rf)))
          (elems (findImplementers objs t true)) (elems (findImplementers objs t false)).
Proof.
  rewrite !findImplementers_spec. apply Forall2_map_same. intros i _.
  unfold result_row; simpl. split; [done|].
  rewrite select_implementers_concrete. apply sublist_map_std, sublist_filter_std.
Qed.

Lemma select_implementers_app (i : ObjectIdent) (c : bool) (l l' : list ObjectIdent) :
  forall V W, W = list_to_set (map NewChar l) ∪ V ->
  select_implementers i c (l ++ l') V = select_implementers i c l V ++ select_implementers i c l' W.
Proof.
  induction l as [|x l IH]; intros V W HW; simpl.
  - rewrite HW. f_equal. set_solver.
  - case_bool_decide as Hx.
    + apply IH. rewrite HW. simpl. set_solver.
    + destruct (candidate_ok c i x); simpl; rewrite (IH _ W); try done;
        rewrite HW; simpl; set_solver.
Qed.

Lemma select_implementers_visited (i : ObjectIdent) (c : bool) (l : list ObjectIdent) :
  forall V, Forall (fun x => NewChar x ∈ V) l -> select_implementers i c l V = [].
Proof.
  induction l as [|x l IH]; intros V Hl; simpl; [done|].
  apply Forall_cons in Hl as [Hx Hl]. rewrite bool_decide_eq_true_2 by done. by apply IH.
Qed.

Lemma dedup_interfaces_app (l l' : list ObjectIdent) :
  forall D W, W = list_to_set (map NewChar l) ∪ D ->
  dedup_interfaces (l ++ l') D = dedup_interfaces l D ++ dedup_interfaces l' W.
Proof.
  induction l as [|x l IH]; intros D W HW; simpl.
  - rewrite HW. f_equal. set_solver.
  - case_bool_decide as Hx.
    + apply IH. rewrite HW. simpl. set_solver.
    + simpl. rewrite (IH _ W); [done|]. rewrite HW; simpl; set_solver.
Qed.

Lemma dedup_interfaces_visited (l : list ObjectIdent) :
  forall D, Forall (fun x => NewChar x ∈ D) l -> dedup_interfaces l D = [].
Proof.
  induction l as [|x l IH]; intros D Hl; simpl; [done|].
  apply Forall_cons in Hl as [Hx Hl]. rewrite bool_decide_eq_true_2 by done. by apply IH.
Qed.

Lemma filterInterfaces_app (l l' : list ObjectIdent) (t : string) :
  filterInterfaces (l ++ l') t = filterInterfaces l t ++ filterInterfaces l' t.
Proof. unfold filterInterfaces. apply List.filter_app. Qed.

Lemma filterInterfaces_incl (l l' : list ObjectIdent) (t : string) :
  (forall x, x ∈ l' -> x ∈ l) ->
  forall x, x ∈ filterInterfaces l' t -> x ∈ filterInterfaces l t.
Proof.
  unfold filterInterfaces. intros H x. rewrite !list_elem_of_In, !filter_In.
  intros [Hx Hf]. split; [|done]. apply list_elem_of_In, H. by apply list_elem_of_In.
Qed.

(** Objects that occur twice in the universe change nothing: appending
    to [objects] copies of objects it already holds (as when a package
    is read twice) gives the same result, nil or not, row for row. *)
Theorem findImplementers_duplicates (objs extra : list ObjectIdent) (t : string) (c : bool)
    (Hdup : forall x, x ∈ extra -> x ∈ objs) :
  findImplementers (objs ++ extra) t c = findImplementers objs t c.
Proof.
  assert (Hchars : forall l, (forall x, x ∈ l -> x ∈ objs) ->
            Forall (fun x => NewChar x ∈ (list_to_set (map NewChar objs) ∪ (∅ : gset Char))) l).
  { intros l Hl. apply Forall_forall. intros x Hx. apply elem_of_union_l.
    apply elem_of_list_to_set, elem_of_map_intro. by apply Hl. }
  assert (Helems : elems (findImplementers (objs ++ extra) t c) = elems (findImplementers objs t c)).
  { rewrite !findImplementers_spec, filterInterfaces_app, (dedup_interfaces_app _ _ _ _ eq_refl).
    rewrite (dedup_interfaces_visited (filterInterfaces extra t)).
    2:{ apply Forall_forall. intros x Hx. apply elem_of_union_l.
        apply elem_of_list_to_set, elem_of_map_intro.
        by apply (filterInterfaces_incl objs extra t Hdup). }
    rewrite app_nil_r. apply map_ext_in. intros i _. unfold result_row. do 3 f_equal.
    rewrite (select_implementers_app _ _ _ _ _ _ eq_refl), (select_implementers_visited i c extra);
      [by rewrite app_nil_r|].
    apply Hchars, Hdup. }
  rewrite (findImplementers_shape (objs ++ extra)), (findImplementers_shape objs), Helems.
  rewrite filterInterfaces_app.
  destruct (filterInterfaces objs t) as [|i rest] eqn:Hf; [|done].
  destruct (filterInterfaces extra t) as [|j rest'] eqn:Hg; [done|].
  exfalso. assert (Hj : j ∈ filterInterfaces objs t).
  { apply (filterInterfaces_incl objs extra t Hdup). rewrite Hg. apply elem_of_cons. by left. }
  rewrite Hf in Hj. by apply elem_of_nil in Hj.
Qed.

Lemma findImplementers_duplicates_witness :
  (forall x, x ∈ [Testdata.Foo_obj] -> x ∈ Testdata.universe_file1) /\
  findImplementers (Testdata.universe_file1 ++ [Testdata.Foo_obj]) "testpkg.Foo"%string false =
  findImplementers Testdata.universe_file1 "testpkg.Foo"%string false.
Proof.
  assert (H : forall x, x ∈ [Testdata.Foo_obj] -> x ∈ Testdata.universe_file1).
  { intros x Hx. apply list_elem_of_singleton in Hx as ->.
    apply (list_elem_of_lookup_2 _ 0). reflexivity. }
  split; [exact H|].
  exact (findImplementers_duplicates _ _ _ _ H).
Defined.

(** ** wrapErr *)

(** The text of [wrapErr(msg, e)] always starts with [msg: ] and ends
    with the whole text of [e]: wrapping never loses the wrapped error's
    message.  In between there is nothing when [e] is not a
    [wrappedErr], and [e]'s own message with its separator when it is. *)
Theorem wrapErr_message (m : string) (e : error) :
  exists mid, Error (wrapErr m e) = (m ++ ": " ++ mid ++ Error e)%string /\
    (forall s, e = ErrString s -> mid = ""%string).
Proof.
  destruct e as [s|m0 e0].
  - exists ""%string. split; [reflexivity|done].
  - exists (m0 ++ ": ")%string. split; [|done].
    change (Error (wrapErr m (wrappedErr m0 e0)))
      with ((m ++ ": " ++ m0) ++ ": " ++ (m0 ++ ": " ++ Error e0))%string.
    rewrite !string_append_assoc. reflexivity.
Qed.

(** ** checkFlags *)

Lemma contains_spec (l : list string) (t : string) : contains l t = true <-> t ∈ l.
Proof.
  induction l as [|s l IH]; simpl.
  - split; [discriminate|intros H; by apply elem_of_nil in H].
  - rewrite elem_of_cons, <- IH. destruct (String.eqb_spec s t); [subst; tauto|].
    split; [tauto|intros [->|H]; [done|exact H]].
Qed.

Lemma length_split_byte (c : Ascii.ascii) (s : string) :
  List.length (split_byte c s) = S (count_byte c s).
Proof.
  induction s as [|ch s IH]; simpl; [done|].
  destruct (Ascii.eqb ch c); simpl; [by rewrite IH|].
  destruct (split_byte c s) as [|p ps]; simpl in *; [discriminate|done].
Qed.

(** [checkFlags] accepts the flags (returns nil) exactly when the path is
    not empty, the interface name has exactly one dot (so [pkg.Name],
    but also [.Name] or [pkg.]), and the format is [plain], [json] or
    [xml]; otherwise it reports the first of these conditions that
    fails, in that order. *)
Theorem checkFlags_spec (arg : Args) :
  (checkFlags arg = None <->
     arg_Path arg <> ""%string /\ count_byte "."%char (arg_Interface arg) = 1 /\
     arg_Format arg ∈ ["plain"; "json"; "xml"]%string) /\
  (arg_Path arg = ""%string -> checkFlags arg = Some err_path) /\
  (arg_Path arg <> ""%string -> count_byte "."%char (arg_Interface arg) <> 1 ->
     checkFlags arg = Some err_interface) /\
  (arg_Path arg <> ""%string -> count_byte "."%char (arg_Interface arg) = 1 ->
     (arg_Format arg ∉ ["plain"; "json"; "xml"]%string) -> checkFlags arg = Some err_format).
Proof.
  unfold checkFlags. rewrite length_split_byte, <- contains_spec.
  destruct (String.eqb_spec (arg_Path arg) ""%string) as [Hp|Hp];
  destruct (Nat.eqb_spec (S (count_byte "."%char (arg_Interface arg))) 2) as [Hc|Hc];
  destruct (contains ["plain"; "json"; "xml"]%string (arg_Format arg)); simpl;
  intuition (try congruence; try lia).
Qed.

(** ** The plain output *)

Section OutputProofs.
Variable base_of : Position -> string.
Variable RuneCount : string -> nat.

Lemma row_lines_body (L n i : nat) (r : Result) :
  row_lines base_of RuneCount L n i r =
    row_body base_of RuneCount L r ++ (if negb (Nat.eqb i (n - 1)) then [""%string] else []).
Proof.
  unfold row_lines, row_body. destruct (elems (Implementers r)); simpl; [done|].
  done.
Qed.

Lemma print_rows_join (L n : nat) (rs : list Result) :
  forall i, i + List.length rs = n ->
  print_rows base_of RuneCount L n i rs = join_blocks (map (row_body base_of RuneCount L) rs).
Proof.
  induction rs as [|r rest IH]; intros i Hn; simpl; [done|].
  rewrite row_lines_body, (IH (S i)) by (simpl in Hn; lia).
  destruct rest as [|r' rest']; simpl in *.
  - rewrite (proj2 (Nat.eqb_eq i (n - 1))) by lia. simpl. by rewrite !app_nil_r.
  - rewrite (proj2 (Nat.eqb_neq i (n - 1))) by lia. simpl. by rewrite <- app_assoc.
Qed.

(** The plain output prints the rows in order, each as one line per
    implementer or, when it has none, the single line
    [No implementing types.], with exactly one empty line between two
    rows and none after the last. *)
Theorem output_plain_layout (res : slice Result) :
  output_plain base_of RuneCount res =
    join_blocks (map (row_body base_of RuneCount (longest_of base_of res)) (elems res)).
Proof. unfold output_plain. apply print_rows_join. done. Qed.

Lemma row_body_nonempty (L : nat) (r : Result) : row_body base_of RuneCount L r <> [].
Proof. unfold row_body. destruct (elems (Implementers r)); simpl; discriminate. Qed.

Lemma join_blocks_nil (bs : list (list string)) :
  Forall (fun b => b <> []) bs -> join_blocks bs = [] <-> bs = [].
Proof.
  intros Hbs. split; [|by intros ->].
  destruct bs as [|b [|b' bs]]; [done| |]; apply Forall_cons in Hbs as [Hb _]; simpl.
  - done.
  - intros H. apply app_eq_nil in H as [H _]. done.
Qed.

Lemma findImplementers_rows_nil (objs : list ObjectIdent) (t : string) (c : bool) :
  elems (findImplementers objs t c) = [] <-> filterInterfaces objs t = [].
Proof.
  rewrite findImplementers_spec. destruct (filterInterfaces objs t) as [|i rest]; simpl; [done|].
  rewrite bool_decide_eq_false_2 by set_solver. simpl. split; discriminate.
Qed.

(** A query prints nothing at all, not even [No implementing types.],
    exactly when no interface of the universe has the target's name;
    otherwise at least one line is printed. *)
Theorem output_plain_silent (objs : list ObjectIdent) (t : string) (c : bool) :
  output_plain base_of RuneCount (findImplementers objs t c) = [] <-> filterInterfaces objs t = [].
Proof.
  rewrite output_plain_layout, join_blocks_nil.
  - rewrite <- findImplementers_rows_nil. split; [apply map_eq_nil|by intros ->].
  - apply Forall_forall. intros b Hb. apply elem_of_map_inv in Hb as (r & -> & _).
    apply row_body_nonempty.
Qed.

Lemma longest_inner (w : ResultIdentifier -> nat) (l : list ResultIdentifier) :
  forall acc,
  fold_left (fun longest ri => if Nat.ltb longest (w ri) then w ri else longest) l acc =
  fold_left (fun longest ri => Nat.max longest (w ri)) l acc.
Proof.
  induction l as [|x l IH]; intros acc; simpl; [done|].
  rewrite IH. f_equal. destruct (Nat.ltb_spec acc (w x)); lia.
Qed.

Lemma fold_max_ge {A} (w : A -> nat) (l : list A) :
  forall acc, acc <= fold_left (fun m x => Nat.max m (w x)) l acc /\
              Forall (fun x => w x <= fold_left (fun m x => Nat.max m (w x)) l acc) l.
Proof.
  induction l as [|x l IH]; intros acc; simpl; [split; [done|constructor]|].
  destruct (IH (Nat.max acc (w x))) as [H1 H2]. split; [lia|constructor; [lia|done]].
Qed.

Lemma fold_max_attained {A} (w : A -> nat) (l : list A) :
  forall acc, fold_left (fun m x => Nat.max m (w x)) l acc = acc \/
              exists x, x ∈ l /\ fold_left (fun m x => Nat.max m (w x)) l acc = w x.
Proof.
  induction l as [|x l IH]; intros acc; simpl; [by left|].
  destruct (IH (Nat.max acc (w x))) as [H|(y & Hy & H)].
  - rewrite H. destruct (Nat.max_spec acc (w x)) as [[_ ->]|[_ ->]].
    + right. exists x. split; [apply elem_of_cons; by left|done].
    + by left.
  - right. exists y. split; [by apply elem_of_cons; right|done].
Qed.

Lemma longest_of_max (res : slice Result) :
  longest_of base_of res =
  fold_left (fun m r => fold_left (fun m ri => Nat.max m (width base_of ri)) (elems (Implementers r)) m)
    (elems res) 0.
Proof.
  unfold longest_of. generalize 0. induction (elems res) as [|r rs IH]; intros acc; simpl; [done|].
  rewrite IH. f_equal. apply (longest_inner (width base_of)).
Qed.

Lemma fold_nested_ge (rs : list Result) :
  forall acc,
  let F := fold_left (fun m r => fold_left (fun m ri => Nat.max m (width base_of ri)) (elems (Implementers r)) m) rs acc in
  acc <= F /\ forall r ri, r ∈ rs -> ri ∈ elems (Implementers r) -> width base_of ri <= F.
Proof.
  induction rs as [|r rs IH]; intros acc; simpl.
  - split; [done|]. intros r ri Hr. by apply elem_of_nil in Hr.
  - destruct (fold_max_ge (width base_of) (elems (Implementers r)) acc) as [Ha Hb].
    destruct (IH (fold_left (fun m ri => Nat.max m (width base_of ri)) (elems (Implementers r)) acc)) as [H1 H2].
    split; [lia|]. intros r' ri Hr' Hri. apply elem_of_cons in Hr' as [->|Hr'].
    + rewrite Forall_forall in Hb. specialize (Hb ri Hri). lia.
    + by apply (H2 r').
Qed.

Lemma fold_nested_attained (rs : list Result) :
  forall acc,
  let F := fold_left (fun m r => fold_left (fun m ri => Nat.max m (width base_of ri)) (elems (Implementers r)) m) rs acc in
  F = acc \/ exists r ri, r ∈ rs /\ ri ∈ elems (Implementers r) /\ F = width base_of ri.
Proof.
  induction rs as [|r rs IH]; intros acc; simpl; [by left|].
  destruct (IH (fold_left (fun m ri => Nat.max m (width base_of ri)) (elems (Implementers r)) acc))
    as [H|(r' & ri & Hr & Hri & H)].
  - rewrite H. destruct (fold_max_attained (width base_of) (elems (Implementers r)) acc) as [H'|(ri & Hri & H')].
    + by left.
    + right. exists r, ri. split_and!; [apply elem_of_cons; by left|done|done].
  - right. exists r', ri. split_and!; [by apply elem_of_cons; right|done|done].
Qed.

Lemma join_blocks_elem (bs : list (list string)) (b : list string) (x : string) :
  b ∈ bs -> x ∈ b -> x ∈ join_blocks bs.
Proof.
  induction bs as [|b0 [|b1 bs] IH]; intros Hb Hx; [by apply elem_of_nil in Hb| |].
  - apply list_elem_of_singleton in Hb as ->. done.
  - change (x ∈ b0 ++ [""%string] ++ join_blocks (b1 :: bs)).
    apply elem_of_cons in Hb as [->|Hb]; apply elem_of_app; [by left|].
    right. apply elem_of_app. right. by apply IH.
Qed.

Hypothesis RuneCount_le : forall s, RuneCount s <= String.length s.

Lemma string_length_app (a b : string) :
  String.length (a ++ b)%string = String.length a + String.length b.
Proof. induction a as [|ch a IH]; simpl; [done|by rewrite IH]. Qed.

(** The plain output is aligned: with [L] the largest
    [len(path)+len(": ")] over all implementers ([0] when there are
    none), every implementer [ri] of every row has the line
    [path: ] padded with spaces to [L] runes and then [ri.Name]: the
    names all start at rune [L], and [L] is as small as that allows.
    This holds whatever the rune count of the paths, as it never exceeds
    their length in bytes. *)
Theorem output_plain_aligned (res : slice Result) :
  let L := longest_of base_of res in
  (forall r ri, r ∈ elems res -> ri ∈ elems (Implementers r) ->
     exists k, (base_of (ri_Pos ri) ++ sep ++ spaces k ++ ri_Name ri)%string ∈ output_plain base_of RuneCount res /\
               RuneCount (base_of (ri_Pos ri) ++ sep)%string + k = L /\
               String.length (base_of (ri_Pos ri)) + String.length sep <= L) /\
  (L = 0 \/ exists r ri, r ∈ elems res /\ ri ∈ elems (Implementers r) /\
                         L = String.length (base_of (ri_Pos ri)) + String.length sep).
Proof.
  intros L. split.
  - intros r ri Hr Hri.
    destruct (fold_nested_ge (elems res) 0) as [_ Hge].
    assert (Hw : width base_of ri <= L) by (unfold L; rewrite longest_of_max; by apply (Hge r)).
    unfold width in Hw.
    exists (L - RuneCount (base_of (ri_Pos ri) ++ sep)%string). split_and!.
    + rewrite output_plain_layout. fold L.
      apply (join_blocks_elem _ (row_body base_of RuneCount L r)); [by apply elem_of_map_intro|].
      unfold row_body. destruct (elems (Implementers r)) as [|x xs] eqn:He;
        [by apply elem_of_nil in Hri|].
      set (f := fun ri0 : ResultIdentifier =>
                  (pad RuneCount L (base_of (ri_Pos ri0) ++ sep) ++ ri_Name ri0)%string).
      replace (base_of (ri_Pos ri) ++ sep ++ spaces (L - RuneCount (base_of (ri_Pos ri) ++ sep)) ++ ri_Name ri)%string
        with (f ri) by (unfold f, pad; rewrite !string_append_assoc; reflexivity).
      change (f ri ∈ map f (x :: xs)). by apply elem_of_map_intro.
    + specialize (RuneCount_le (base_of (ri_Pos ri) ++ sep)%string).
      rewrite string_length_app in RuneCount_le. lia.
    + done.
  - unfold L. rewrite longest_of_max.
    destruct (fold_nested_attained (elems res) 0) as [H|(r & ri & Hr & Hri & H)]; [by left|].
    right. exists r, ri. split_and!; done.
Qed.

End OutputProofs.

(** ** getObjects: termination, progress and the objects returned *)

Section GetObjectsRuns.
Context {V : Type}.

Lemma list_sum_insert (us : list (UnitSt V)) (k : nat) (u u' : UnitSt V) :
  us !! k = Some u ->
  list_sum (map unit_w (<[k := u']> us)) + unit_w u = list_sum (map unit_w us) + unit_w u'.
Proof.
  revert k. induction us as [|x us IH]; intros [|k] Hk; simpl in *; try discriminate.
  - injection Hk as ->. lia.
  - specialize (IH k Hk). lia.
Qed.

Lemma step_measure (s s' : St V) : step s s' -> measure s' < measure s.
Proof.
  intros Hs. unfold measure.
  destruct Hs as [k u v res us xc Hk Hf|res us|k u res us xc Hk He|k u e res us xc Hk He
                 |k u v vs m us xc Hk Hf He|k u m us xc Hk He|k u m us xc Hk Hf Hc|m us Hall];
    simpl;
    try match goal with
        | |- context [<[k := ?u']> us] => pose proof (list_sum_insert us k u u' Hk) as Hsum
        end;
    unfold unit_w, set_fwd, set_err in *; simpl in *;
    try rewrite Hf in *; try rewrite He in *; simpl in *;
    try destruct xc; try destruct m; simpl in *; lia.
Qed.

Lemma Acc_measure (n : nat) :
  forall s : St V, measure s <= n -> Acc (fun s1 s0 => step s0 s1) s.
Proof.
  induction n as [|n IH]; intros s Hs; constructor; intros s' Hst;
    pose proof (step_measure _ _ Hst); [lia|]. apply IH. lia.
Qed.

(** [getObjects] always terminates: there is no infinite run of its
    goroutines, whatever the packages send and whichever of them fail;
    every sequence of communications from any state is finite. *)
Theorem getObjects_terminates (s : St V) : Acc (fun s1 s0 => step s0 s1) s.
Proof. exact (Acc_measure (measure s) s (le_n _)). Qed.

Lemma concat_map_insert {A} (f : UnitSt V -> list A) (us : list (UnitSt V)) (k : nat) (u u' : UnitSt V) :
  us !! k = Some u ->
  Permutation (List.concat (map f (<[k := u']> us)) ++ f u) (List.concat (map f us) ++ f u').
Proof.
  revert k. induction us as [|x us IH]; intros [|k] Hk; simpl in *; try discriminate.
  - injection Hk as ->. rewrite <- !app_assoc.
    rewrite (Permutation_app_comm (List.concat (map f us)) (f u)),
            (Permutation_app_comm (List.concat (map f us)) (f u')).
    apply Permutation_app_swap_app.
  - rewrite <- !app_assoc. apply Permutation_app_head. by apply IH.
Qed.

Lemma concat_map_insert_same {A} (f : UnitSt V -> list A) (us : list (UnitSt V)) (k : nat) (u u' : UnitSt V) :
  us !! k = Some u -> f u' = f u -> List.concat (map f (<[k := u']> us)) = List.concat (map f us).
Proof.
  intros Hk Hf. rewrite <- (list_insert_id us k u Hk) at 2.
  revert k Hk. induction us as [|x us IH]; intros [|k] Hk; simpl in *; try discriminate.
  - by rewrite Hf.
  - f_equal. by apply IH.
Qed.

Lemma Forall2_inv2_update (b b' : bool) (outs : list (UnitOutcome V)) (us : list (UnitSt V))
    (k : nat) (u u' : UnitSt V) :
  Forall2 (unit_inv2 b) outs us -> us !! k = Some u ->
  (forall o, outs !! k = Some o -> unit_inv2 b o u -> unit_inv2 b' o u') ->
  (forall (o : UnitOutcome V) (x : UnitSt V), unit_inv2 b o x -> unit_inv2 b' o x) ->
  Forall2 (unit_inv2 b') outs (<[k := u']> us).
Proof.
  intros Hall Hk Hu Hmono.
  destruct (Forall2_lookup_r _ _ _ _ _ Hall Hk) as (o & Ho & Hinv).
  rewrite <- (list_insert_id outs k o Ho). apply Forall2_insert; [|by apply Hu].
  eapply Forall2_impl; [exact Hall|]. apply Hmono.
Qed.

Lemma getObjects_inv2_init (outs : list (UnitOutcome V)) :
  getObjects_inv2 outs (getObjects_init outs).
Proof.
  split; simpl.
  - induction outs as [|[e|vs] outs IH]; simpl; constructor; try done; simpl; split; discriminate.
  - apply reflexive_eq. induction outs as [|[e|vs] outs IH]; simpl; [done|done|].
    unfold pending at 1; simpl. by f_equal.
Qed.

Lemma unit_inv2_same (b : bool) (o : UnitOutcome V) (u u' : UnitSt V) :
  u_err u' = u_err u -> u_emit u' = u_emit u -> u_closed u' = u_closed u ->
  unit_inv2 b o u -> unit_inv2 b o u'.
Proof. intros He Hm Hc. destruct o; unfold unit_inv2; by rewrite ?He, ?Hm, ?Hc. Qed.

Lemma unit_inv2_false (b : bool) (o : UnitOutcome V) (u : UnitSt V) :
  unit_inv2 b o u -> unit_inv2 false o u.
Proof. destruct o; unfold unit_inv2; [intros _ H; discriminate|done]. Qed.

Lemma getObjects_inv2_step (outs : list (UnitOutcome V)) (s s' : St V) :
  getObjects_inv2 outs s -> step s s' -> getObjects_inv2 outs s'.
Proof.
  intros [Hunits Hperm] Hs.
  destruct Hs as [k u v res us xc Hk Hf|res us|k u res us xc Hk He|k u e res us xc Hk He
                 |k u v vs m us xc Hk Hf He|k u m us xc Hk He|k u m us xc Hk Hf Hc|m us Hall];
    simpl in *.
  - split.
    + eapply Forall2_inv2_update; [exact Hunits|exact Hk| |done].
      intros o _. apply unit_inv2_same; done.
    + pose proof (concat_map_insert pending us k u (set_fwd u FRecv) Hk) as Hp.
      unfold pending at 2 in Hp. unfold pending at 3 in Hp. rewrite Hf in Hp. simpl in Hp.
      simpl. rewrite <- Hperm. unfold sappend. simpl. rewrite <- app_assoc.
      apply Permutation_app_head.
      apply (Permutation_app_inv_r (match u_emit u with Some l => l | None => [] end)).
      rewrite <- Hp. simpl. apply Permutation_middle.
  - split; [|done]. eapply Forall2_impl; [exact Hunits|]. apply unit_inv2_false.
  - split.
    + eapply Forall2_inv2_update; [exact Hunits|exact Hk| |done].
      intros o Ho Hi. destruct o as [e|vs]; unfold unit_inv2 in *; simpl; [|done].
      intros _. rewrite He in Hi. by specialize (Hi eq_refl).
    + simpl. by rewrite (concat_map_insert_same pending us k u (set_err u None) Hk).
  - split; [|done].
    eapply Forall2_inv2_update; [exact Hunits|exact Hk| |apply unit_inv2_false].
    intros o _ Hi. apply unit_inv2_false in Hi. destruct o; unfold unit_inv2 in *; simpl; done.
  - split.
    + eapply Forall2_inv2_update; [exact Hunits|exact Hk| |done].
      intros o _ Hi. destruct o as [e|vs']; unfold unit_inv2 in *; simpl; [done|].
      rewrite He in Hi. split; [discriminate|]. intros Hc. apply Hi in Hc. discriminate.
    + simpl. rewrite (concat_map_insert_same pending us k u _ Hk); [done|].
      unfold pending. simpl. by rewrite Hf, He.
  - split.
    + eapply Forall2_inv2_update; [exact Hunits|exact Hk| |done].
      intros o _ Hi. destruct o; unfold unit_inv2 in *; simpl; done.
    + simpl. rewrite (concat_map_insert_same pending us k u _ Hk); [done|].
      unfold pending. simpl. by rewrite He.
  - split.
    + eapply Forall2_inv2_update; [exact Hunits|exact Hk| |done].
      intros o _. apply unit_inv2_same; done.
    + simpl. rewrite (concat_map_insert_same pending us k u _ Hk); [done|].
      unfold pending. simpl. by rewrite Hf.
  - done.
Qed.

Lemma getObjects_inv2_reach (outs : list (UnitOutcome V)) (s : St V) :
  rtc step (getObjects_init outs) s -> getObjects_inv2 outs s.
Proof.
  intros Hr. assert (Hi := getObjects_inv2_init outs). revert Hi.
  induction Hr as [|x y z Hxy _ IH]; [done|].
  intros Hx. apply IH. by apply (getObjects_inv2_step _ x y).
Qed.

Lemma find_unit (P : UnitSt V -> Prop) (dec : forall u, {P u} + {~ P u}) (us : list (UnitSt V)) :
  (exists k u, us !! k = Some u /\ P u) \/ Forall (fun u => ~ P u) us.
Proof.
  induction us as [|u us IH]; [by right|].
  destruct (dec u) as [Hu|Hu].
  - left. exists 0, u. done.
  - destruct IH as [(k & x & Hk & Hx)|Hall].
    + left. exists (S k), x. done.
    + right. by constructor.
Qed.

Lemma dec_err (u : UnitSt V) : {u_err u <> None} + {~ u_err u <> None}.
Proof. destruct (u_err u); [left; discriminate|right; tauto]. Defined.

Lemma dec_send (u : UnitSt V) : {exists v, u_fwd u = FSend v} + {~ exists v, u_fwd u = FSend v}.
Proof. destruct (u_fwd u) as [|v|]; [right; intros [? ?]; discriminate|left; by exists v|right; intros [? ?]; discriminate]. Defined.

Lemma dec_recv (u : UnitSt V) : {u_fwd u = FRecv} + {u_fwd u <> FRecv}.
Proof. destruct (u_fwd u); [by left|right; discriminate|right; discriminate]. Defined.

(** While the loop of [getObjects] is still running, some goroutine can
    always go on: the goroutines of [getObjects] never deadlock before
    it returns.  With termination, every run ends with [getObjects]
    returning. *)
Theorem getObjects_progress (outs : list (UnitOutcome V)) (s : St V) (res : slice V)
    (Hreach : rtc step (getObjects_init outs) s) (Hloop : st_main s = MLoop res) :
  exists s', step s s'.
Proof.
  destruct (getObjects_inv_reach outs s Hreach) as (Hunits & _ & _).
  destruct (getObjects_inv2_reach outs s Hreach) as [Hunits2 _].
  destruct s as [m us xc]; simpl in *; subst m.
  destruct (find_unit (fun u => u_err u <> None) dec_err us)
    as [(k & u & Hk & He)|Herr].
  { destruct (u_err u) as [[e|]|] eqn:He'; [| |done].
    - eexists. exact (step_recv_err k u e res us xc Hk He').
    - eexists. exact (step_recv_nil k u res us xc Hk He'). }
  destruct (find_unit (fun u => exists v, u_fwd u = FSend v) dec_send us)
    as [(k & u & Hk & v & Hf)|Hsend].
  { eexists. exact (step_recv_obj k u v res us xc Hk Hf). }
  destruct (find_unit (fun u => u_fwd u = FRecv) dec_recv us)
    as [(k & u & Hk & Hf)|Hrecv].
  { destruct (u_emit u) as [[|v vs]|] eqn:Hm.
    - eexists. exact (step_close k u (MLoop res) us xc Hk Hm).
    - eexists. exact (step_forward k u v vs (MLoop res) us xc Hk Hf Hm).
    - destruct (Forall2_lookup_r _ _ _ _ _ Hunits2 Hk) as (o & Ho & Hi).
      assert (He : u_err u = None).
      { rewrite Forall_forall in Herr. destruct (u_err u) eqn:E; [|done].
        exfalso. apply (Herr u); [by apply list_elem_of_lookup_2 with k|by rewrite E]. }
      destruct o as [e|vs]; unfold unit_inv2 in Hi; simpl in Hi.
      + rewrite (Hi eq_refl) in He. discriminate.
      + eexists. exact (step_fwd_done k u (MLoop res) us xc Hk Hf (proj1 Hi Hm)). }
  assert (Hdone : Forall (fun u => u_fwd u = FDone) us).
  { apply Forall_forall. intros u Hu. rewrite Forall_forall in Hsend, Hrecv.
    specialize (Hsend u Hu). specialize (Hrecv u Hu).
    destruct (u_fwd u) as [|v|]; [done|exfalso; apply Hsend; by exists v|done]. }
  destruct xc.
  - eexists. apply step_recv_closed.
  - eexists. by apply step_close_x.
Qed.

Lemma concat_pending_nil (us : list (UnitSt V)) :
  Forall (fun u => pending u = []) us -> List.concat (map pending us) = [].
Proof. induction 1 as [|u us Hu _ IH]; simpl; [done|by rewrite Hu, IH]. Qed.

(** When [getObjects] returns a nil error, every package was type
    checked without error, and the returned list holds exactly the
    objects all the packages sent, each as many times as it was sent,
    in some order. *)
Theorem getObjects_success_result (outs : list (UnitOutcome V)) (s : St V) (res : slice V)
    (Hreach : rtc step (getObjects_init outs) s) (Hret : st_main s = MReturn res None) :
  Forall (fun o => exists vs, o = UOk vs) outs /\
  Permutation (elems res) (List.concat (map sent outs)).
Proof.
  destruct (getObjects_inv_reach outs s Hreach) as (Hunits & Hx & Hmain).
  destruct (getObjects_inv2_reach outs s Hreach) as [Hunits2 Hperm].
  unfold main_inv in Hmain. rewrite Hret in Hmain, Hperm, Hunits2.
  specialize (Hx Hmain). rewrite Forall_forall in Hx.
  assert (Hok : Forall2 (fun o u => (exists vs, o = UOk vs) /\ pending u = []) outs (st_units s)).
  { apply Forall2_same_length_lookup_2; [by eapply Forall2_length|].
    intros i o u Ho Hu.
    destruct (Forall2_lookup_lr _ _ _ _ _ _ Hunits Ho Hu) as [Hdone Hi].
    pose proof (Forall2_lookup_lr _ _ _ _ _ _ Hunits2 Ho Hu) as Hi2.
    assert (Hf : u_fwd u = FDone) by (apply Hx; by apply list_elem_of_lookup_2 with i).
    specialize (Hdone Hf).
    destruct o as [e|vs]; simpl in Hi, Hi2.
    - destruct Hi as [Hc _]. congruence.
    - split; [by exists vs|]. unfold pending. rewrite Hf. by rewrite (proj2 Hi2 Hdone). }
  split.
  - apply Forall_forall. intros o Ho. apply list_elem_of_lookup_1 in Ho as [i Ho].
    destruct (Forall2_lookup_l _ _ _ _ _ Hok Ho) as (u & _ & H & _). done.
  - rewrite concat_pending_nil, app_nil_r in Hperm; [done|].
    apply Forall_forall. intros u Hu. apply list_elem_of_lookup_1 in Hu as [i Hu].
    destruct (Forall2_lookup_r _ _ _ _ _ Hok Hu) as (o & _ & _ & H). done.
Qed.

Lemma drain_unit (vs : list V) :
  forall (us : list (UnitSt V)) (k : nat) (res : slice V) (xc : bool),
  us !! k = Some (mkUnitSt (Some None) (Some vs) false FRecv) ->
  rtc step (mkSt (MLoop res) us xc)
           (mkSt (MLoop (fold_left sappend vs res)) (<[k := done_unit]> us) xc).
Proof.
  induction vs as [|v vs IH]; intros us k res xc Hk; simpl.
  - assert (Hlt : k < List.length us) by (by eapply lookup_lt_Some).
    eapply rtc_l; [eapply step_close; [exact Hk|reflexivity]|]. simpl.
    eapply rtc_l; [eapply step_fwd_done; [apply list_lookup_insert_eq; exact Hlt|done|done]|].
    rewrite list_insert_insert_eq. apply rtc_refl.
  - assert (Hlt : k < List.length us) by (by eapply lookup_lt_Some).
    eapply rtc_l; [eapply step_forward; [exact Hk|done|done]|]. simpl.
    eapply rtc_l; [eapply step_recv_obj; [apply list_lookup_insert_eq; exact Hlt|done]|].
    rewrite list_insert_insert_eq. unfold set_fwd. simpl.
    rewrite <- (list_insert_insert_eq us k done_unit (mkUnitSt (Some None) (Some vs) false FRecv)).
    apply IH. by apply list_lookup_insert_eq.
Qed.

Lemma drain_all (vss : list (list V)) :
  forall (pre : list (UnitSt V)) (res : slice V),
  rtc step (mkSt (MLoop res) (pre ++ map (fun vs => unit_init (UOk vs)) vss) false)
           (mkSt (MLoop (collect vss res)) (pre ++ map (fun _ => done_unit) vss) false).
Proof.
  induction vss as [|vs vss IH]; intros pre res; simpl; [apply rtc_refl|].
  assert (Hk : (pre ++ unit_init (UOk vs) :: map (fun vs => unit_init (UOk vs)) vss) !! List.length pre
               = Some (mkUnitSt (Some None) (Some vs) false FRecv))
    by (by apply list_lookup_middle).
  pose proof (drain_unit vs _ _ res false Hk) as H1.
  rewrite insert_app_r_alt, Nat.sub_diag in H1 by lia. simpl in H1.
  eapply rtc_trans; [exact H1|].
  specialize (IH (pre ++ [done_unit]) (fold_left sappend vs res)).
  rewrite <- !app_assoc in IH. exact IH.
Qed.

Lemma success_run (vss : list (list V)) :
  rtc step (getObjects_init (map UOk vss))
           (mkSt (MReturn (collect vss SNil) None) (map (fun _ => done_unit) vss) true).
Proof.
  unfold getObjects_init. rewrite map_map.
  eapply rtc_trans; [exact (drain_all vss [] SNil)|]. simpl.
  eapply rtc_l; [apply step_close_x|].
  - apply Forall_forall. intros u Hu. apply elem_of_map_inv in Hu as (? & -> & _). done.
  - apply rtc_once, step_recv_closed.
Qed.

Lemma elems_fold_sappend (vs : list V) :
  forall r, elems (fold_left sappend vs r) = elems r ++ vs.
Proof.
  induction vs as [|v vs IH]; intros r; simpl; [by rewrite app_nil_r|].
  rewrite IH. simpl. by rewrite <- app_assoc.
Qed.

Lemma elems_collect (vss : list (list V)) :
  forall r, elems (collect vss r) = elems r ++ List.concat vss.
Proof.
  induction vss as [|vs vss IH]; intros r; simpl; [by rewrite app_nil_r|].
  unfold collect in *. rewrite IH, elems_fold_sappend. by rewrite <- app_assoc.
Qed.

(** Even when every package is type checked without error,
    [getObjects] can return all their objects with a nil error before
    it has received the packages' [nil] errors from [errCh]: in that
    run every package goroutine is left waiting to send on [errCh], in
    every continuation, that is forever. *)
Theorem getObjects_success_leaks (vss : list (list V)) :
  exists (s : St V) (res : slice V), rtc step (getObjects_init (map UOk vss)) s /\
    st_main s = MReturn res None /\ elems res = List.concat vss /\
    forall s', rtc step s s' -> Forall (fun u => u_err u = Some None) (st_units s').
Proof.
  eexists _, _. split_and!; [apply success_run|reflexivity| |].
  - rewrite elems_collect. done.
  - intros s' Hr. destruct (return_freezes_units (mkSt (MReturn (collect vss SNil) None) (map (fun _ => done_unit) vss) true) s' (collect vss SNil) None eq_refl Hr) as [_ Hb].
    simpl in Hb. apply Forall_forall. intros u' Hu'.
    apply list_elem_of_lookup_1 in Hu' as [i Hi].
    destruct (Forall2_lookup_r _ _ _ _ _ Hb Hi) as (u & Hu & [He _]).
    rewrite He. apply list_elem_of_lookup_2, elem_of_map_inv in Hu as (? & -> & _). done.
Qed.

End GetObjectsRuns.

Lemma output_plain_aligned_witness :
  (forall s : string, String.length s <= String.length s) /\
  (let L := longest_of pos_filename (findImplementers Testdata.universe_file1 "testpkg.Foo"%string false) in
  (forall r ri, r ∈ elems (findImplementers Testdata.universe_file1 "testpkg.Foo"%string false) ->
     ri ∈ elems (Implementers r) ->
     exists k, (pos_filename (ri_Pos ri) ++ sep ++ spaces k ++ ri_Name ri)%string ∈
                 output_plain pos_filename String.length
                   (findImplementers Testdata.universe_file1 "testpkg.Foo"%string false) /\
               String.length (pos_filename (ri_Pos ri) ++ sep)%string + k = L /\
               String.length (pos_filename (ri_Pos ri)) + String.length sep <= L) /\
  (L = 0 \/ exists r ri, r ∈ elems (findImplementers Testdata.universe_file1 "testpkg.Foo"%string false) /\
                         ri ∈ elems (Implementers r) /\
                         L = String.length (pos_filename (ri_Pos ri)) + String.length sep)).
Proof.
  split; [intros s; reflexivity|].
  exact (output_plain_aligned pos_filename String.length (fun s => le_n _)
           (findImplementers Testdata.universe_file1 "testpkg.Foo"%string false)).
Defined.

Lemma getObjects_progress_witness :
  rtc step (getObjects_init c9_outs) (getObjects_init c9_outs) /\
  st_main (getObjects_init c9_outs) = MLoop SNil /\
  exists s', step (getObjects_init c9_outs) s'.
Proof.
  split; [apply rtc_refl|]. split; [reflexivity|].
  exact (getObjects_progress c9_outs (getObjects_init c9_outs) SNil (rtc_refl _ _) eq_refl).
Defined.

Lemma getObjects_success_result_witness :
  rtc step (getObjects_init (map UOk [[7; 8]; [9]]))
    (mkSt (MReturn (collect [[7; 8]; [9]] SNil) None) (map (fun _ => done_unit) [[7; 8]; [9]]) true) /\
  st_main (mkSt (MReturn (collect [[7; 8]; [9]] SNil) None) (map (fun _ => done_unit) [[7; 8]; [9]]) true)
    = MReturn (collect [[7; 8]; [9]] SNil) None /\
  Forall (fun o => exists vs, o = UOk vs) (map UOk [[7; 8]; [9]]) /\
  Permutation (elems (collect [[7; 8]; [9]] SNil)) (List.concat (map sent (map UOk [[7; 8]; [9]]))).
Proof.
  assert (Hr := success_run [[7; 8]; [9]]).
  split; [exact Hr|]. split; [reflexivity|].
  exact (getObjects_success_result _ _ _ Hr eq_refl).
Defined.
